(** * undici: header lists and the multipart/form-data parser

    A shallow embedding of
      - the classes [HeadersList] and [Headers], with [headerValueNormalize]
        (the fetch headers module, second part of
        [lib/cookie-store/cookie-change-event.js]),
      - the class [FormDataParser] ([lib/formdata/parser.js]),
      - [combineChunks], [ParserState] and [CRLF] ([lib/formdata/util.js]),
    followed by the properties of these classes that the specification
    states, each either proved or refuted on the embedding. *)

From Stdlib Require Import List Strings.String Strings.Ascii Strings.Byte ZArith Bool Lia Arith.
From Stdlib Require Import DecimalString.
Import ListNotations.

Set Implicit Arguments.
Open Scope Z_scope.

(* ===================================================================== *)
(** * Part I. The embedding                                              *)
(* ===================================================================== *)

(** ** JavaScript values and completions *)

Module JS.

(** The values that can sit in a slot of the header list's backing
    array: a string, or [undefined]. *)
Inductive value : Type :=
| Undefined
| Str (s : string).

(** Errors the modelled code throws. *)
Inductive error : Type :=
| TypeError (msg : string)
| InvalidArgument (prefix value type : string)
| AssertionError.

(** How a call ends.  [OutOfFuel] belongs to the model only: loops whose
    trip count is not a syntactic bound are unrolled a given number of
    times. *)
Inductive outcome (A : Type) : Type :=
| Ret (a : A)
| Throw (e : error)
| OutOfFuel.
Arguments Throw {A} e.
Arguments OutOfFuel {A}.

Definition is_throw {A} (o : outcome A) : bool :=
  match o with Throw _ => true | _ => false end.

(** ToString, as string concatenation applies it. *)
Definition to_string (v : value) : string :=
  match v with
  | Undefined => "undefined"
  | Str s => s
  end.

(** [String.prototype.toLowerCase] on one code unit below 256: the
    letters A-Z and the Latin-1 capitals U+00C0..U+00DE (U+00D7, the
    multiplication sign, apart) move up by 32. *)
Definition lower_char (c : ascii) : ascii :=
  let n := nat_of_ascii c in
  if (((65 <=? n) && (n <=? 90)) ||
      ((192 <=? n) && (n <=? 222) && negb (n =? 215)))%nat%bool
  then ascii_of_nat (n + 32)
  else c.

Fixpoint toLowerCase (s : string) : string :=
  match s with
  | EmptyString => EmptyString
  | String c r => String (lower_char c) (toLowerCase r)
  end.

Definition undefined_has_no (prop : string) : error :=
  TypeError ("Cannot read properties of undefined (reading '" ++ prop ++ "')").

(** [v.toLowerCase()] for a slot value [v]. *)
Definition value_toLowerCase (v : value) : outcome string :=
  match v with
  | Undefined => Throw (undefined_has_no "toLowerCase")
  | Str s => Ret (toLowerCase s)
  end.

End JS.

(** ** [class HeadersList] *)

Module HeadersList.
Import JS.

(** The object has one own data property, [backer], a flat array
    [name0, value0, name1, value1, ...]. *)
Record t : Type := mk { backer : list value }.

(** [constructor (init)]: a copy of [init] ([init.slice()]) when given,
    the empty array otherwise. *)
Definition constructor (init : option (list value)) : t :=
  match init with
  | Some a => mk a
  | None => mk []
  end.

(** [this[i]] for a number [i].  The instance has no integer-keyed
    property (the pairs live in [this.backer]) and neither has its
    prototype chain, so the read yields [undefined]. *)
Definition this_at (h : t) (i : Z) : value := Undefined.

Definition len (h : t) : Z := Z.of_nat (List.length (backer h)).

(** The [for (let i = startingIndex; i < this.backer.length; i += 2)]
    loop of [contains], run over the slots from [i] on. *)
Fixpoint contains_scan (name : string) (i : Z) (slots : list value)
  : outcome Z :=
  match slots with
  | [] => Ret (-1)
  | k :: after =>
      match value_toLowerCase k with
      | Ret key =>
          if String.eqb key name then Ret i
          else match after with
               | [] => Ret (-1)
               | _ :: slots' => contains_scan name (i + 2) slots'
               end
      | Throw e => Throw e
      | OutOfFuel => OutOfFuel
      end
  end.

(** [contains].  With a negative [startingIndex] the loop is entered
    (the index is below the length) and [this.backer[i]] reads outside
    the array: [undefined], whose [toLowerCase] throws. *)
Definition contains (h : t) (name : string) (startingIndex : Z) : outcome Z :=
  let name := toLowerCase name in
  if startingIndex >? len h then Ret (-1)
  else if startingIndex <? 0
       then Throw (undefined_has_no "toLowerCase")
  else contains_scan name startingIndex
         (skipn (Z.to_nat startingIndex) (backer h)).

Definition clear (h : t) : t := mk [].

(** [append]: the state after the call and how the call ended. *)
Definition append (name value : string) (h : t) : t * outcome unit :=
  match contains h name 0 with
  | Ret idx =>
      let name := if idx =? -1 then Str name else this_at h idx in
      (mk (backer h ++ [name; Str value]), Ret tt)
  | Throw e => (h, Throw e)
  | OutOfFuel => (h, OutOfFuel)
  end.

(** [this.backer.splice(index, 2)] for [0 <= index]. *)
Definition splice2 (h : t) (index : Z) : t :=
  let i := Z.to_nat index in
  mk (firstn i (backer h) ++ skipn (i + 2) (backer h)).

(** The [while (index !== -1)] loop of [delete]. *)
Fixpoint delete_loop (fuel : nat) (name : string) (index : Z) (h : t)
  : t * outcome unit :=
  if index =? -1 then (h, Ret tt)
  else match fuel with
       | O => (h, OutOfFuel)
       | S fuel' =>
           let h' := splice2 h index in
           match contains h' name index with
           | Ret index' => delete_loop fuel' name index' h'
           | Throw e => (h', Throw e)
           | OutOfFuel => (h', OutOfFuel)
           end
       end.

(** Every turn of the loop removes a slot, so [length backer] turns are
    enough (lemma [delete_loop_total] below). *)
Definition delete (name : string) (h : t) : t * outcome unit :=
  match contains h name 0 with
  | Ret index => delete_loop (List.length (backer h)) name index h
  | Throw e => (h, Throw e)
  | OutOfFuel => (h, OutOfFuel)
  end.

Definition set (name value : string) (h : t) : t * outcome unit :=
  match delete name h with
  | (h', Ret _) => append name value h'
  | (h', Throw e) => (h', Throw e)
  | (h', OutOfFuel) => (h', OutOfFuel)
  end.

(** The [while (index !== -1)] loop of [get]; [list] is the string
    built so far. *)
Fixpoint get_loop (fuel : nat) (h : t) (name : string) (index : Z)
         (list : string) : outcome string :=
  if index =? -1 then Ret list
  else match fuel with
       | O => OutOfFuel
       | S fuel' =>
           let list :=
             if (String.length list =? 0)%nat
             then (list ++ to_string (this_at h (index + 1)))%string
             else (list ++ ", " ++ to_string (this_at h (index + 1)))%string in
           match contains h name (index + 2) with
           | Ret index' => get_loop fuel' h name index' list
           | Throw e => Throw e
           | OutOfFuel => OutOfFuel
           end
       end.

(** [get]: [None] is JavaScript's [null]. *)
Definition get (h : t) (name : string) : outcome (option string) :=
  match contains h name 0 with
  | Ret index =>
      if index =? -1 then Ret None
      else match get_loop (List.length (backer h)) h name index "" with
           | Ret list => Ret (Some list)
           | Throw e => Throw e
           | OutOfFuel => OutOfFuel
           end
  | Throw e => Throw e
  | OutOfFuel => OutOfFuel
  end.

Definition has (h : t) (name : string) : outcome bool :=
  match contains h name 0 with
  | Ret index => Ret (negb (index =? -1))
  | Throw e => Throw e
  | OutOfFuel => OutOfFuel
  end.

(** The local object [headers] of [sortAndCombine], as its entries in
    insertion order. *)
Definition object : Type := list (string * value).

Fixpoint hasOwn (o : object) (key : string) : bool :=
  match o with
  | [] => false
  | (k, _) :: r => String.eqb k key || hasOwn r key
  end.

(** [headers[key] = value] *)
Fixpoint assign (o : object) (key : string) (v : value) : object :=
  match o with
  | [] => [(key, v)]
  | (k, old) :: r =>
      if String.eqb k key then (k, v) :: r
      else (k, old) :: assign r key v
  end.

(** [headers[key] += more], for a key the object has and a string
    [more]. *)
Fixpoint add_assign (o : object) (key more : string) : object :=
  match o with
  | [] => []
  | (k, old) :: r =>
      if String.eqb k key then (k, Str (to_string old ++ more)) :: r
      else (k, old) :: add_assign r key more
  end.

(** The [for (let i = 0; i < this.backer.length; i += 2)] loop of
    [sortAndCombine], at index [i] with [slots] still to visit. *)
Fixpoint combine_loop (h : t) (i : Z) (slots : list value) (headers : object)
  : outcome object :=
  match slots with
  | [] => Ret headers
  | _ :: after =>
      match value_toLowerCase (this_at h i) with
      | Ret key =>
          let value := this_at h (i + 1) in
          let headers :=
            if negb (i =? 0) && hasOwn headers key
            then add_assign headers key (", " ++ to_string value)
            else assign headers key value in
          match after with
          | [] => Ret headers
          | _ :: slots' => combine_loop h (i + 2) slots' headers
          end
      | Throw e => Throw e
      | OutOfFuel => OutOfFuel
      end
  end.

(** The comparator handed to [sort] returns -1 exactly when [a < b]. *)
Definition before (a b : string * value) : bool :=
  String.ltb (fst a) (fst b).

Fixpoint insert_sorted (e : string * value) (l : object) : object :=
  match l with
  | [] => [e]
  | x :: r => if before x e then x :: insert_sorted e r else e :: l
  end.

(** [Object.entries(headers).sort(...)].  The sort is stable; the keys
    of an object are pairwise different, so the order in which
    [Object.entries] lists them does not show in the result. *)
Definition sort_entries (o : object) : object :=
  fold_right insert_sorted [] o.

Definition sortAndCombine (h : t) : outcome object :=
  match combine_loop h 0 (backer h) [] with
  | Ret headers => Ret (sort_entries headers)
  | Throw e => Throw e
  | OutOfFuel => OutOfFuel
  end.

End HeadersList.

(** ** [class Headers] *)

Module Headers.
Import JS.

Inductive Guard : Type :=
| none | immutable | request | request_no_cors | response.

Record t : Type := mk { kHeadersList : HeadersList.t; kGuard : Guard }.

Definition is_http_whitespace (c : ascii) : bool :=
  (Ascii.eqb c "013" || Ascii.eqb c "010" || Ascii.eqb c "009" ||
   Ascii.eqb c " ")%char.

Fixpoint strip_leading (s : string) : string :=
  match s with
  | EmptyString => EmptyString
  | String c r => if is_http_whitespace c then strip_leading r else s
  end.

Fixpoint strip_trailing (s : string) : string :=
  match s with
  | EmptyString => EmptyString
  | String c r =>
      match strip_trailing r with
      | EmptyString => if is_http_whitespace c then EmptyString
                       else String c EmptyString
      | r' => String c r'
      end
  end.

(** [potentialValue.replace(/^[\r\n\t ]+|[\r\n\t ]+$/g, '')] *)
Definition headerValueNormalize (potentialValue : string) : string :=
  strip_trailing (strip_leading potentialValue).

(** Modelled from the spec: [webidl.errors.invalidArgument] lives in
    [lib/fetch/webidl.js]; an illegal name or value "fails with an
    InvalidArgument error", reported synchronously to the caller, so the
    call throws and nothing after it runs. *)
Definition invalidArgument {A} (prefix value type : string) : outcome A :=
  Throw (InvalidArgument prefix value type).

(** [new Headers()]: an empty list, guard "none". *)
Definition constructor : t := mk (HeadersList.constructor None) none.

(** What reaches [fill] as [object]: an array of arrays of strings, a
    record (given by its [Object.entries], in their order), or a value
    that is neither. *)
Inductive HeadersInit : Type :=
| Sequence (headers : list (list string))
| Entries (entries : list (string * string))
| Neither.

(** [webidl.errors.exception] and [webidl.errors.conversionFailed] live in
    [lib/fetch/webidl.js]; as the comments at their calls say ("throw a
    TypeError", "null should throw"), a call throws a TypeError.  The
    text of [exception] is the header, a colon and the message. *)
Definition exception {A} (header message : string) : outcome A :=
  Throw (TypeError (header ++ ": " ++ message)).

Definition conversionFailed {A} (prefix argument : string) : outcome A :=
  Throw (TypeError (prefix ++ ": " ++ argument)).

Definition length_text {A} (l : list A) : string :=
  NilZero.string_of_uint (Nat.to_uint (List.length l)).


Section Methods.

(** The token grammar of [lib/fetch/util.js], taken as given. *)
Variable isValidHeaderName : string -> bool.
Variable isValidHeaderValue : string -> bool.

(** The argument-count and [instanceof] checks and the [ByteString]
    conversions cannot fail on arguments of type [string] (code units
    below 256), and leave them as they are. *)

Definition with_list (hs : t) (r : HeadersList.t * outcome unit)
  : t * outcome unit :=
  (mk (fst r) (kGuard hs), snd r).

Definition append (name value : string) (hs : t) : t * outcome unit :=
  let value := headerValueNormalize value in
  if negb (isValidHeaderName name)
  then (hs, invalidArgument "Headers.append" name "header name")
  else if negb (isValidHeaderValue value)
  then (hs, invalidArgument "Headers.append" value "header value")
  else
    match kGuard hs with
    | immutable => (hs, Throw (TypeError "immutable"))
    | _ => with_list hs (HeadersList.append name value (kHeadersList hs))
    end.

Definition delete (name : string) (hs : t) : t * outcome unit :=
  if negb (isValidHeaderName name)
  then (hs, invalidArgument "Headers.delete" name "header name")
  else
    match kGuard hs with
    | immutable => (hs, Throw (TypeError "immutable"))
    | _ =>
        match HeadersList.has (kHeadersList hs) name with
        | Ret false => (hs, Ret tt)
        | Ret true => with_list hs (HeadersList.delete name (kHeadersList hs))
        | Throw e => (hs, Throw e)
        | OutOfFuel => (hs, OutOfFuel)
        end
    end.

Definition get (name : string) (hs : t) : outcome (option string) :=
  if negb (isValidHeaderName name)
  then invalidArgument "Headers.get" name "header name"
  else HeadersList.get (kHeadersList hs) name.

Definition has (name : string) (hs : t) : outcome bool :=
  if negb (isValidHeaderName name)
  then invalidArgument "Headers.has" name "header name"
  else HeadersList.has (kHeadersList hs) name.

Definition set (name value : string) (hs : t) : t * outcome unit :=
  let value := headerValueNormalize value in
  if negb (isValidHeaderName name)
  then (hs, invalidArgument "Headers.set" name "header name")
  else if negb (isValidHeaderValue value)
  then (hs, invalidArgument "Headers.set" value "header value")
  else
    match kGuard hs with
    | immutable => (hs, Throw (TypeError "immutable"))
    | _ => with_list hs (HeadersList.set name value (kHeadersList hs))
    end.

(** The loop of [fill] over a sequence. *)
Fixpoint fill_sequence (object : list (list string)) (headers : t)
  : t * outcome unit :=
  match object with
  | [] => (headers, Ret tt)
  | header :: object' =>
      match header with
      | [name; value] =>
          match append name value headers with
          | (headers', Ret _) => fill_sequence object' headers'
          | (headers', Throw e) => (headers', Throw e)
          | (headers', OutOfFuel) => (headers', OutOfFuel)
          end
      | _ =>
          (headers,
           exception "Headers constructor"
             ("expected name/value pair to be length 2, found "
              ++ length_text header ++ "."))
      end
  end.

(** The loop of [fill] over the entries of a record. *)
Fixpoint fill_entries (entries : list (string * string)) (headers : t)
  : t * outcome unit :=
  match entries with
  | [] => (headers, Ret tt)
  | (key, value) :: entries' =>
      match append key value headers with
      | (headers', Ret _) => fill_entries entries' headers'
      | (headers', Throw e) => (headers', Throw e)
      | (headers', OutOfFuel) => (headers', OutOfFuel)
      end
  end.

Definition fill (headers : t) (object : HeadersInit) : t * outcome unit :=
  match object with
  | Sequence l => fill_sequence l headers
  | Entries es => fill_entries es headers
  | Neither => (headers, conversionFailed "Headers constructor" "Argument 1")
  end.

(** [new Headers(init)].  [webidl.converters.HeadersInit] lets a
    sequence or a record through and throws on anything else; a throw
    leaves the caller without an object. *)
Definition constructor_init (init : option HeadersInit) : outcome t :=
  match init with
  | None => Ret constructor
  | Some Neither => conversionFailed "Headers constructor" "Argument 1"
  | Some init =>
      match fill constructor init with
      | (headers, Ret _) => Ret headers
      | (_, Throw e) => Throw e
      | (_, OutOfFuel) => OutOfFuel
      end
  end.

End Methods.

End Headers.

(** ** Node's [Buffer], as far as the parser uses it *)

Module Buffer.

Definition t : Type := list byte.

Definition byteLength (b : t) : Z := Z.of_nat (List.length b).

(** An index argument of [slice]/[subarray]: a negative one counts from
    the end, and the result is kept within [0, len]. *)
Definition clamp (len i : Z) : Z :=
  if i <? 0 then Z.max (len + i) 0 else Z.min i len.

(** [b.subarray(start, end)]; [b.slice(start, end)] is the same view. *)
Definition subarray (b : t) (start end_ : Z) : t :=
  let len := byteLength b in
  let s := clamp len start in
  let e := clamp len end_ in
  firstn (Z.to_nat (e - s)) (skipn (Z.to_nat s) b).

Definition slice := subarray.

(** [b.subarray(start)], [b.slice(start)]: up to the end. *)
Definition subarray_from (b : t) (start : Z) : t :=
  subarray b start (byteLength b).

Definition slice_from := subarray_from.

Fixpoint starts_with (needle b : t) : bool :=
  match needle, b with
  | [], _ => true
  | _ :: _, [] => false
  | x :: needle', y :: b' => Byte.eqb x y && starts_with needle' b'
  end.

(** The first position, counted from [i], at which [needle] occurs in
    [b]; -1 when there is none. *)
Fixpoint indexOf_scan (needle b : t) (i : Z) : Z :=
  if starts_with needle b then i
  else match b with
       | [] => -1
       | _ :: b' => indexOf_scan needle b' (i + 1)
       end.

(** [b.indexOf(value, byteOffset)] for [0 <= byteOffset]. *)
Definition indexOf (b value : t) (byteOffset : Z) : Z :=
  let off := Z.min byteOffset (byteLength b) in
  indexOf_scan value (skipn (Z.to_nat off) b) off.

Definition includes (b value : t) : bool := negb (indexOf b value 0 =? -1).

(** [Buffer.concat(list)] *)
Definition concat (chunks : list t) : t := List.concat chunks.

(** UTF-8 of one code unit below 256. *)
Definition utf8_char (c : ascii) : t :=
  let n := N_of_ascii c in
  if (n <? 128)%N then [byte_of_ascii c]
  else match Byte.of_N (192 + n / 64), Byte.of_N (128 + n mod 64) with
       | Some hi, Some lo => [hi; lo]
       | _, _ => []
       end.

(** [Buffer.from(string)] *)
Fixpoint from (s : string) : t :=
  match s with
  | EmptyString => []
  | String c r => utf8_char c ++ from r
  end.

End Buffer.

(** ** [lib/formdata/constants.js], [lib/formdata/util.js] *)

Module ParserState.
Inductive t : Type := Beginning | Headers | Body | Boundary.

Definition is_Boundary (s : t) : bool :=
  match s with Boundary => true | _ => false end.
End ParserState.

Definition CRLF : Buffer.t := Buffer.from (String "013" (String "010" EmptyString)).

Definition combineChunks (chunks : list Buffer.t) : Buffer.t :=
  match chunks with
  | [c] => c
  | _ => Buffer.concat chunks
  end.

(** ** [class FormDataParser] *)

Module FormDataParser.
Import JS.

(** What [parseMIMEType] returns when it does not fail. *)
Record MIMEType : Type := mkMIME {
  type : string;
  subtype : string;
  parameters : list (string * string)
}.

(** [parameters.get(key)] on the [Map] of parameters. *)
Fixpoint parameters_get (ps : list (string * string)) (key : string)
  : option string :=
  match ps with
  | [] => None
  | (k, v) :: r => if String.eqb k key then Some v else parameters_get r key
  end.

Definition parameters_has (ps : list (string * string)) (key : string) : bool :=
  match parameters_get ps key with Some _ => true | None => false end.

Record t : Type := mk {
  mimeType : MIMEType;
  state : ParserState.t;
  currentChunk : list Buffer.t;
  nextChunk : list Buffer.t;
  boundary : Buffer.t;
  lastBytes : option Buffer.t        (* [None] is [undefined] *)
}.

Section Construction.

(** [parseMIMEType] of [lib/fetch/dataURL.js], taken as given; [None]
    is its ['failure']. *)
Variable parseMIMEType : string -> option MIMEType.

Definition constructor (header : string) : outcome t :=
  if negb (String.prefix "multipart/form-data" header)
  then Throw (TypeError "Expected multipart/form-data header")
  else
    match parseMIMEType header with
    | None => Throw (TypeError "Failed to parse the header")
    | Some parsedMimeType =>
        if negb (String.eqb (type parsedMimeType) "multipart") ||
           negb (String.eqb (subtype parsedMimeType) "form-data")
        then Throw (TypeError
               ("Expected header essence to be multipart/form-data, got "
                ++ type parsedMimeType ++ "/" ++ subtype parsedMimeType))
        else
          match parameters_get (parameters parsedMimeType) "boundary" with
          | None => Throw (TypeError "Header has no boundary")
          | Some b =>
              Ret (mk parsedMimeType ParserState.Beginning [] []
                      (Buffer.from ("--" ++ b)) None)
          end
    end.

End Construction.

(** [get contentType]: a template literal, so a missing boundary reads
    "undefined". *)
Definition contentType (p : t) : string :=
  type (mimeType p) ++ "/" ++ subtype (mimeType p) ++ "; boundary="
  ++ match parameters_get (parameters (mimeType p)) "boundary" with
     | Some b => b
     | None => "undefined"
     end.


(** [this.emit(name, payload)], as seen by the listeners. *)
Record event : Type := Emit { name : string; payload : Buffer.t }.

(** A parser together with the events it has emitted so far, oldest
    first. *)
Record run : Type := Run { self : t; emitted : list event }.

Definition M (A : Type) : Type := run -> run * outcome A.

Definition with_state (s : ParserState.t) (p : t) : t :=
  mk (mimeType p) s (currentChunk p) (nextChunk p) (boundary p) (lastBytes p).

Definition with_currentChunk (c : list Buffer.t) (p : t) : t :=
  mk (mimeType p) (state p) c (nextChunk p) (boundary p) (lastBytes p).

Definition with_nextChunk (n : list Buffer.t) (p : t) : t :=
  mk (mimeType p) (state p) (currentChunk p) n (boundary p) (lastBytes p).

Definition with_lastBytes (l : option Buffer.t) (p : t) : t :=
  mk (mimeType p) (state p) (currentChunk p) (nextChunk p) (boundary p) l.

Definition emit (name : string) (payload : Buffer.t) (r : run) : run :=
  Run (self r) (emitted r ++ [Emit name payload]).

(** [for (const nextChunk of next) { this.write(nextChunk) }] *)
Fixpoint for_each (write : Buffer.t -> M unit) (next : list Buffer.t)
  : M unit :=
  fun r =>
    match next with
    | [] => (r, Ret tt)
    | nextChunk :: next' =>
        match write nextChunk r with
        | (r', Ret _) => for_each write next' r'
        | (r', Throw e) => (r', Throw e)
        | (r', OutOfFuel) => (r', OutOfFuel)
        end
    end.

(** The tail all three cases of [parse] share: take [#nextChunk], empty
    both queues, set the state and write the taken chunks again. *)
Definition reset_and_reinject (write : Buffer.t -> M unit)
           (s : ParserState.t) : M unit :=
  fun r =>
    let next := nextChunk (self r) in
    let p := with_state s (with_nextChunk [] (with_currentChunk [] (self r))) in
    for_each write next (Run p (emitted r)).

(** [parse (chunks)], with the method [write] it calls back. *)
Definition parse_with (write : Buffer.t -> M unit) (chunks : list Buffer.t)
  : M unit :=
  fun r =>
    let p := self r in
    match state p with
    | ParserState.Boundary | ParserState.Beginning =>
        let buffer := combineChunks chunks in
        if Buffer.indexOf buffer (boundary p) 0 =? -1
        then (r, Throw AssertionError)
        else
          let r :=
            match state p with
            | ParserState.Beginning => emit "boundary" (Buffer.slice_from buffer 2) r
            | _ => emit "boundary" (Buffer.slice_from buffer 4) r
            end in
          reset_and_reinject write ParserState.Headers r
    | ParserState.Headers =>
        let buffer := combineChunks chunks in
        let length := Buffer.byteLength buffer in
        if negb (length =? 0)
        then reset_and_reinject write ParserState.Headers (emit "header" buffer r)
        else reset_and_reinject write ParserState.Body r
    | ParserState.Body =>
        let buffer := combineChunks chunks in
        reset_and_reinject write ParserState.Boundary (emit "body" buffer r)
    end.

Definition push_currentChunk (c : Buffer.t) (p : t) : t :=
  with_currentChunk (currentChunk p ++ [c]) p.

Definition push_nextChunk (c : Buffer.t) (p : t) : t :=
  with_nextChunk (nextChunk p ++ [c]) p.

(** [write (chunk)].  [write] and [parse] call each other; [fuel] bounds
    the depth of the nesting of [write] calls. *)
Fixpoint write (fuel : nat) (chunk : Buffer.t) : M unit :=
  fun r =>
    match fuel with
    | O => (r, OutOfFuel)
    | S fuel' =>
        let p := self r in
        match state p with
        | ParserState.Beginning | ParserState.Boundary | ParserState.Headers =>
            let crlf :=
              Buffer.indexOf chunk CRLF
                (if ParserState.is_Boundary (state p) then 2 else 0) in
            if crlf =? -1
            then (Run (push_currentChunk chunk p) (emitted r), Ret tt)
            else
              let header := Buffer.slice chunk 0 crlf in
              let rest := Buffer.slice_from chunk (crlf + Buffer.byteLength CRLF) in
              let p := push_currentChunk header p in
              let p := if negb (Buffer.byteLength rest =? 0)
                       then push_nextChunk rest p else p in
              parse_with (write fuel') (currentChunk p) (Run p (emitted r))
        | ParserState.Body =>
            let p :=
              match lastBytes p with
              | None =>
                  if negb (Buffer.includes chunk CRLF)
                  then push_currentChunk chunk p
                  else with_lastBytes (Some chunk) p
              | Some last => with_lastBytes (Some (Buffer.concat [last; chunk])) p
              end in
            match lastBytes p with
            | None => (Run p (emitted r), Throw (undefined_has_no "indexOf"))
            | Some last =>
                let boundaryIndex := Buffer.indexOf last (boundary p) 0 in
                if (Buffer.byteLength last <? 1024) && (boundaryIndex =? -1)
                then (Run p (emitted r), Ret tt)
                else if negb (boundaryIndex =? -1)
                then
                  let toBoundary :=
                    Buffer.subarray last 0
                      (boundaryIndex - Buffer.byteLength CRLF) in
                  let p := push_currentChunk toBoundary p in
                  let p := push_nextChunk
                             (Buffer.subarray_from last
                                (Buffer.byteLength toBoundary)) p in
                  let p := with_lastBytes None p in
                  parse_with (write fuel') (currentChunk p) (Run p (emitted r))
                else (Run p (emitted r), Ret tt)
            end
        end
    end.

Definition parse (fuel : nat) : list Buffer.t -> M unit :=
  parse_with (write fuel).

(** Successive [write] calls by a caller that does not catch: the first
    call that does not return ends the sequence. *)
Definition feed (fuel : nat) (chunks : list Buffer.t) : M unit :=
  for_each (write fuel) chunks.

End FormDataParser.

(** ** [class Stash extends Map] (the test server) *)

Module Stash.

Section Keys.

(** Keys with the equality of [Map] (SameValueZero), and whatever the
    callers store. *)
Variable K : Type.
Variable same : K -> K -> bool.
Variable V : Type.

(** What [put] stores under a key: the object [{ value, path }]. *)
Record entry : Type := Entry { value : V; path : string }.

(** A [Map], as its entries in insertion order; a key occurs once. *)
Definition t : Type := list (K * entry).

Fixpoint get (m : t) (key : K) : option entry :=
  match m with
  | [] => None
  | (k, e) :: m' => if same k key then Some e else get m' key
  end.

Definition has (m : t) (key : K) : bool :=
  match get m key with Some _ => true | None => false end.

Fixpoint delete (m : t) (key : K) : t :=
  match m with
  | [] => []
  | (k, e) :: m' => if same k key then m' else (k, e) :: delete m' key
  end.

Fixpoint set (m : t) (key : K) (e : entry) : t :=
  match m with
  | [] => [(key, e)]
  | (k, old) :: m' =>
      if same k key then (k, e) :: m' else (k, old) :: set m' key e
  end.

(** [take (key)]: the stash after the call and what the call returns
    ([None] is [undefined]). *)
Definition take (key : K) (m : t) : t * option V :=
  if has m key
  then match get m key with
       | Some e => (delete m key, Some (value e))
       | None => (delete m key, None)
       end
  else (m, None).

(** [put (key, value, path)] *)
Definition put (key : K) (v : V) (p : string) (m : t) : t :=
  set m key (Entry v p).

End Keys.

End Stash.

(* ===================================================================== *)
(** * Part II. Properties                                                *)
(* ===================================================================== *)

(** ** The header list *)

Module HeadersListSpec.
Import JS HeadersList.

(** Induction over a flat array two slots at a time. *)
Lemma pairwise_ind (A : Type) (P : list A -> Prop) :
  P [] -> (forall x, P [x]) -> (forall x y l, P l -> P (x :: y :: l)) ->
  forall l, P l.
Proof.
  intros H0 H1 H2 l.
  assert (H : P l /\ forall x, P (x :: l)).
  { induction l as [|a l [IH1 IH2]]; split; auto. }
  exact (proj1 H).
Qed.

(** From an index that is not negative, [contains] is the bounds test
    and the scan. *)
Lemma contains_from_index h name start :
  0 <= start ->
  contains h name start
    = if start >? len h then Ret (-1)
      else contains_scan (toLowerCase name) start
             (skipn (Z.to_nat start) (backer h)).
Proof.
  intros H. unfold contains.
  destruct (Z.ltb_spec start 0); [lia | reflexivity].
Qed.

(** The backing array holds whole (name, value) pairs. *)
Definition flatten (pairs : list (value * value)) : list value :=
  flat_map (fun p => [fst p; snd p]) pairs.

Definition paired (a : list value) : Prop :=
  exists pairs, a = flatten pairs.

Lemma paired_even_length a :
  paired a <-> exists k, List.length a = (2 * k)%nat.
Proof.
  split.
  - intros [pairs ->]. exists (List.length pairs).
    induction pairs as [|p pairs IH]; simpl; [reflexivity | rewrite IH; lia].
  - induction a as [| |x y l IH] using pairwise_ind; intros [k Hk].
    + exists []. reflexivity.
    + simpl in Hk. lia.
    + destruct IH as [pairs ->].
      { exists (k - 1)%nat. simpl in Hk. lia. }
      exists ((x, y) :: pairs). reflexivity.
Qed.

(** The states a caller can bring a header list into: built empty or
    from an array, which the constructor copies as it is, then changed
    through the methods.  A method that throws leaves the list as it was
    when the error arose. *)
Inductive reachable : t -> Prop :=
| reach_new : reachable (constructor None)
| reach_init init : reachable (constructor (Some init))
| reach_append name value h :
    reachable h -> reachable (fst (append name value h))
| reach_set name value h :
    reachable h -> reachable (fst (set name value h))
| reach_delete name h :
    reachable h -> reachable (fst (delete name h))
| reach_clear h : reachable h -> reachable (clear h).

(** What [contains] returns is -1 or the index of a slot, at an even
    distance from where the scan began. *)
Lemma contains_scan_range name slots :
  forall i idx,
    contains_scan name i slots = Ret idx ->
    idx = -1 \/
    exists k, 0 <= k /\ idx = i + 2 * k /\
              idx < i + Z.of_nat (List.length slots).
Proof.
  induction slots as [| k0 | k0 v0 slots IH] using pairwise_ind;
    intros i idx H; simpl in H.
  - left. congruence.
  - destruct (value_toLowerCase k0) as [key| |]; try discriminate.
    destruct (String.eqb key name).
    + right. exists 0. simpl. inversion H. lia.
    + left. congruence.
  - destruct (value_toLowerCase k0) as [key| |]; try discriminate.
    destruct (String.eqb key name).
    + right. exists 0. simpl List.length. inversion H. lia.
    + apply IH in H. destruct H as [H | [k [Hk [Hi Hlt]]]]; [now left|].
      right. exists (k + 1). simpl List.length. lia.
Qed.

Lemma contains_range h name start idx :
  0 <= start ->
  contains h name start = Ret idx ->
  idx = -1 \/
  exists k, 0 <= k /\ idx = start + 2 * k /\ idx < len h.
Proof.
  intros Hs H. rewrite contains_from_index in H by exact Hs.
  destruct (start >? len h) eqn:E.
  - left. congruence.
  - apply contains_scan_range in H.
    destruct H as [H | [k [Hk [Hi Hlt]]]]; [now left|].
    right. exists k. repeat split; try assumption.
    rewrite length_skipn in Hlt. unfold len in *. lia.
Qed.

(** [contains] is a bounded scan: it returns or throws. *)
Lemma contains_scan_fuel_free name slots :
  forall i, contains_scan name i slots <> OutOfFuel.
Proof.
  induction slots as [| k0 | k0 v0 slots IH] using pairwise_ind;
    intros i; simpl; try discriminate.
  - destruct k0 as [|s]; simpl; [discriminate|].
    destruct (String.eqb (toLowerCase s) name); discriminate.
  - destruct k0 as [|s]; simpl; [discriminate|].
    destruct (String.eqb (toLowerCase s) name); [discriminate | apply IH].
Qed.

Lemma contains_fuel_free h name start :
  contains h name start <> OutOfFuel.
Proof.
  unfold contains. destruct (start >? len h); [discriminate|].
  destruct (start <? 0); [discriminate|].
  apply contains_scan_fuel_free.
Qed.

Lemma len_splice2 h index :
  0 <= index -> index + 2 <= len h -> len (splice2 h index) = len h - 2.
Proof.
  intros H0 H1. unfold len, splice2 in *. simpl.
  rewrite length_app, length_firstn, length_skipn. lia.
Qed.

Lemma len_splice2_lt h index :
  0 <= index < len h -> len (splice2 h index) < len h.
Proof.
  intros H. unfold len, splice2 in *. simpl.
  rewrite length_app, length_firstn, length_skipn. lia.
Qed.

(** The loop of [delete] keeps the array in whole pairs, however it
    ends. *)
Lemma delete_loop_even fuel name :
  forall index h,
    (exists n, len h = 2 * n) ->
    (index = -1 \/ exists k, 0 <= k /\ index = 2 * k /\ index < len h) ->
    exists n, len (fst (delete_loop fuel name index h)) = 2 * n.
Proof.
  induction fuel as [|fuel IH]; intros index h [n Hn] Hidx; simpl.
  - destruct (index =? -1); simpl; eauto.
  - destruct (index =? -1) eqn:E; simpl; [eauto|].
    destruct Hidx as [-> | [k [Hk [Hi Hlt]]]]; [discriminate|].
    assert (Hlen : len (splice2 h index) = 2 * (n - 1)).
    { rewrite len_splice2; lia. }
    destruct (contains (splice2 h index) name index) as [index'| |] eqn:Ec;
      simpl; eauto.
    apply IH; [eauto|].
    apply contains_range in Ec; [|lia].
    destruct Ec as [-> | [k' [Hk' [Hi' Hlt']]]]; [now left|].
    right. exists (k + k'). lia.
Qed.

(** [length backer] turns are enough for the loop of [delete]. *)
Lemma delete_loop_total fuel name :
  forall index h,
    (index = -1 \/ 0 <= index < len h) ->
    len h <= Z.of_nat fuel ->
    snd (delete_loop fuel name index h) <> OutOfFuel.
Proof.
  induction fuel as [|fuel IH]; intros index h Hidx Hfuel; simpl.
  - destruct (index =? -1) eqn:E; simpl; [discriminate|].
    destruct Hidx as [-> | Hidx]; [discriminate | lia].
  - destruct (index =? -1) eqn:E; simpl; [discriminate|].
    destruct Hidx as [-> | Hidx]; [discriminate|].
    pose proof (len_splice2_lt h Hidx) as Hlt.
    destruct (contains (splice2 h index) name index) as [index'| |] eqn:Ec;
      simpl; try discriminate.
    + apply IH; [|lia].
      apply contains_range in Ec; [|lia].
      destruct Ec as [-> | [k' [Hk' [Hi' Hlt']]]]; [now left | right; lia].
    + now apply contains_fuel_free in Ec.
Qed.

Lemma delete_total name h : snd (delete name h) <> OutOfFuel.
Proof.
  unfold delete.
  destruct (contains h name 0) as [index| |] eqn:Ec; simpl; try discriminate.
  - apply delete_loop_total; [|unfold len; lia].
    apply contains_range in Ec; [|lia].
    destruct Ec as [-> | [k [Hk [Hi Hlt]]]]; [now left | right; lia].
  - now apply contains_fuel_free in Ec.
Qed.

(** Likewise for the loop of [get], whose index moves on by two slots
    or more every turn. *)
Lemma get_loop_total fuel h name :
  forall index list,
    (index = -1 \/ 0 <= index < len h) ->
    len h - index <= Z.of_nat fuel ->
    get_loop fuel h name index list <> OutOfFuel.
Proof.
  induction fuel as [|fuel IH]; intros index list Hidx Hfuel; simpl.
  - destruct (index =? -1) eqn:E; [discriminate|].
    destruct Hidx as [-> | Hidx]; [discriminate | lia].
  - destruct (index =? -1) eqn:E; [discriminate|].
    destruct Hidx as [-> | Hidx]; [discriminate|].
    destruct (contains h name (index + 2)) as [index'| |] eqn:Ec;
      try discriminate.
    + apply contains_range in Ec; [|lia].
      destruct Ec as [-> | [k' [Hk' [Hi' Hlt']]]].
      * destruct fuel; simpl; discriminate.
      * apply IH; [right; lia | lia].
    + now apply contains_fuel_free in Ec.
Qed.

Lemma get_total h name : get h name <> OutOfFuel.
Proof.
  unfold get.
  destruct (contains h name 0) as [index| |] eqn:Ec; try discriminate.
  - destruct (index =? -1) eqn:E; [discriminate|].
    apply contains_range in Ec; [|lia].
    destruct Ec as [-> | [k [Hk [Hi Hlt]]]]; [discriminate|].
    pose proof (@get_loop_total (List.length (backer h)) h name index ""%string)
      as Ht.
    destruct (get_loop (List.length (backer h)) h name index "");
      try discriminate.
    exfalso. apply Ht; [right; lia | unfold len in *; lia | reflexivity].
  - now apply contains_fuel_free in Ec.
Qed.

(** [get] answers [null] when no name matches. *)
Lemma get_null h name :
  contains h name 0 = Ret (-1) -> get h name = Ret None.
Proof. intros H. unfold get. rewrite H. reflexivity. Qed.

(** [append] under a name the list does not have stores the name as
    given; under a name it has, it stores [this[idx]], which is
    [undefined]. *)
Lemma append_fresh_name h name value :
  contains h name 0 = Ret (-1) ->
  append name value h = (mk (backer h ++ [Str name; Str value]), Ret tt).
Proof. intros H. unfold append. rewrite H. reflexivity. Qed.

Lemma append_existing_name h name value idx :
  contains h name 0 = Ret idx -> idx <> -1 ->
  append name value h = (mk (backer h ++ [Undefined; Str value]), Ret tt).
Proof.
  intros H Hidx. unfold append. rewrite H.
  destruct (Z.eqb_spec idx (-1)); [contradiction | reflexivity].
Qed.

(** [sortAndCombine] reads [this[0]] as soon as the array has a slot. *)
Lemma sortAndCombine_nonempty_throws h :
  backer h <> [] ->
  sortAndCombine h = Throw (undefined_has_no "toLowerCase").
Proof.
  intros H. unfold sortAndCombine.
  destruct (backer h) as [|x l]; [contradiction | reflexivity].
Qed.

Lemma sortAndCombine_empty : sortAndCombine (constructor None) = Ret [].
Proof. reflexivity. Qed.

Lemma paired_len h : paired (backer h) <-> exists n, len h = 2 * n.
Proof.
  rewrite paired_even_length. unfold len. split; intros [k Hk].
  - exists (Z.of_nat k). lia.
  - exists (Z.to_nat k). lia.
Qed.

Lemma append_paired name value h :
  paired (backer h) -> paired (backer (fst (append name value h))).
Proof.
  rewrite !paired_len. intros [n Hn]. unfold append.
  destruct (contains h name 0) as [idx| |]; cbn [fst]; eauto.
  exists (n + 1). unfold len in *. cbn [backer].
  rewrite length_app. cbn [List.length]. lia.
Qed.

Lemma delete_paired name h :
  paired (backer h) -> paired (backer (fst (delete name h))).
Proof.
  rewrite !paired_len. intros Hn. unfold delete.
  destruct (contains h name 0) as [idx| |] eqn:Ec; simpl; eauto.
  apply delete_loop_even; [assumption|].
  apply contains_range in Ec; [|lia].
  destruct Ec as [-> | [k [Hk [Hi Hlt]]]]; [now left|].
  right. exists k. lia.
Qed.

Lemma set_paired name value h :
  paired (backer h) -> paired (backer (fst (set name value h))).
Proof.
  intros H. unfold set.
  pose proof (@delete_paired name h H) as Hd.
  destruct (delete name h) as [h' [u| |]]; simpl in *; try assumption.
  now apply append_paired.
Qed.

(** *** [delete] on a list whose names are strings *)

(** [ok] holds of every name slot (the slots at even indices). *)
Fixpoint all_names (ok : value -> bool) (a : list value) : bool :=
  match a with
  | [] => true
  | k :: rest =>
      ok k && match rest with
              | [] => true
              | _ :: a' => all_names ok a'
              end
  end.

Definition is_string (v : value) : bool :=
  match v with Str _ => true | Undefined => false end.

(** [k] is not a match for the lower-cased name [n]. *)
Definition differs (n : string) (k : value) : bool :=
  match k with
  | Str s => negb (String.eqb (toLowerCase s) n)
  | Undefined => true
  end.

Lemma all_names_app ok (pre suf : list value) :
  (exists k, List.length pre = (2 * k)%nat) ->
  all_names ok (pre ++ suf) = all_names ok pre && all_names ok suf.
Proof.
  induction pre as [| x | x y pre IH] using pairwise_ind; intros [k Hk].
  - reflexivity.
  - simpl in Hk. lia.
  - cbn [app all_names]. rewrite IH.
    + now rewrite andb_assoc.
    + exists (k - 1)%nat. simpl in Hk. lia.
Qed.

Lemma all_names_split ok (a : list value) (k : nat) :
  (2 * k <= List.length a)%nat ->
  all_names ok a
    = all_names ok (firstn (2 * k) a) && all_names ok (skipn (2 * k) a).
Proof.
  intros Hk. rewrite <- (firstn_skipn (2 * k) a) at 1.
  apply all_names_app. exists k. rewrite length_firstn. lia.
Qed.

(** What the scan of [contains] finds in a list of string names. *)
Lemma contains_scan_strings n (a : list value) :
  forall i,
    all_names is_string a = true ->
    (contains_scan n i a = Ret (-1) /\ all_names (differs n) a = true) \/
    (exists k, contains_scan n i a = Ret (i + 2 * Z.of_nat k) /\
               (2 * k < List.length a)%nat /\
               all_names (differs n) (firstn (2 * k) a) = true).
Proof.
  induction a as [| x | x y a IH] using pairwise_ind; intros i Hs.
  - left. split; reflexivity.
  - destruct x as [|s]; [discriminate|].
    cbn [contains_scan value_toLowerCase all_names differs].
    destruct (String.eqb (toLowerCase s) n) eqn:E.
    + right. exists 0%nat. split; [f_equal; lia|].
      split; [simpl; lia | reflexivity].
    + left. split; reflexivity.
  - destruct x as [|s]; [discriminate|]. cbn [all_names is_string andb] in Hs.
    cbn [contains_scan value_toLowerCase].
    destruct (String.eqb (toLowerCase s) n) eqn:E.
    + right. exists 0%nat. split; [f_equal; lia|].
      split; [simpl; lia | reflexivity].
    + destruct (IH (i + 2) Hs) as [[Hc Hn] | [k [Hc [Hk Hn]]]].
      * left. split; [exact Hc|]. cbn [all_names differs]. now rewrite E, Hn.
      * right. exists (S k). split; [rewrite Hc; f_equal; lia|].
        split; [simpl List.length; lia|].
        replace (2 * S k)%nat with (S (S (2 * k))) by lia.
        cbn [firstn all_names differs]. now rewrite E, Hn.
Qed.

Lemma contains_scan_none n (a : list value) :
  forall i,
    all_names is_string a = true ->
    all_names (differs n) a = true ->
    contains_scan n i a = Ret (-1).
Proof.
  induction a as [| x | x y a IH] using pairwise_ind; intros i Hs Hd.
  - reflexivity.
  - destruct x as [|s]; [discriminate|].
    cbn [all_names differs] in Hd. rewrite andb_true_r in Hd.
    cbn [contains_scan value_toLowerCase].
    apply negb_true_iff in Hd. now rewrite Hd.
  - destruct x as [|s]; [discriminate|].
    cbn [all_names is_string andb] in Hs.
    cbn [all_names differs] in Hd. apply andb_prop in Hd. destruct Hd as [Hx Hd].
    cbn [contains_scan value_toLowerCase].
    apply negb_true_iff in Hx. rewrite Hx. now apply IH.
Qed.

Lemma contains_none (h : t) name :
  all_names is_string (backer h) = true ->
  all_names (differs (toLowerCase name)) (backer h) = true ->
  contains h name 0 = Ret (-1).
Proof.
  intros Hs Hd. rewrite contains_from_index by lia.
  destruct (0 >? len h); [reflexivity|]. cbn [Z.to_nat skipn].
  now apply contains_scan_none.
Qed.

Lemma backer_splice2 h (k : nat) :
  backer (splice2 h (Z.of_nat (2 * k)))
    = firstn (2 * k) (backer h) ++ skipn (2 * k + 2) (backer h).
Proof. unfold splice2. cbn [backer]. now rewrite Nat2Z.id. Qed.

Lemma all_names_skip2 ok (b : list value) :
  all_names ok b = true -> all_names ok (skipn 2 b) = true.
Proof.
  destruct b as [|x [|y rest]]; try reflexivity.
  cbn [all_names skipn]. intros H. now apply andb_prop in H.
Qed.

(** The loop of [delete], entered at the first match [2 * k]: it
    returns, and no name of the list it leaves is a match. *)
Lemma delete_loop_strings fuel name :
  forall h k,
    all_names is_string (backer h) = true ->
    (2 * k < List.length (backer h))%nat ->
    all_names (differs (toLowerCase name)) (firstn (2 * k) (backer h)) = true ->
    (List.length (backer h) <= fuel + 2 * k)%nat ->
    exists h',
      delete_loop fuel name (Z.of_nat (2 * k)) h = (h', Ret tt) /\
      all_names is_string (backer h') = true /\
      all_names (differs (toLowerCase name)) (backer h') = true.
Proof.
  induction fuel as [|fuel IH]; intros h k Hs Hk Hd Hfuel; [lia|].
  cbn [delete_loop].
  destruct (Z.eqb_spec (Z.of_nat (2 * k)) (-1)) as [E|_]; [lia|].
  set (h' := splice2 h (Z.of_nat (2 * k))).
  set (pre := firstn (2 * k) (backer h)) in *.
  set (suf := skipn (2 * k + 2) (backer h)).
  assert (Hb : backer h' = pre ++ suf) by apply backer_splice2.
  assert (Hlen : List.length pre = (2 * k)%nat)
    by (unfold pre; rewrite length_firstn; lia).
  assert (Hpre : exists j, List.length pre = (2 * j)%nat) by (now exists k).
  rewrite (@all_names_split is_string (backer h) k) in Hs by lia.
  apply andb_prop in Hs. destruct Hs as [Hs1 Hs2]. fold pre in Hs1.
  assert (Hs3 : all_names is_string suf = true).
  { unfold suf. replace (2 * k + 2)%nat with (2 + 2 * k)%nat by lia.
    rewrite <- skipn_skipn. now apply all_names_skip2. }
  assert (Hsuf : (List.length suf <= fuel)%nat)
    by (unfold suf; rewrite length_skipn; lia).
  assert (Hc : contains h' name (Z.of_nat (2 * k))
               = contains_scan (toLowerCase name) (Z.of_nat (2 * k)) suf).
  { rewrite contains_from_index by lia. unfold len. rewrite Hb, length_app, Hlen.
    destruct (Z.gtb_spec (Z.of_nat (2 * k)) (Z.of_nat (2 * k + List.length suf)));
      [lia|].
    rewrite Nat2Z.id, skipn_app, Hlen, Nat.sub_diag.
    rewrite skipn_all2 by lia. reflexivity. }
  rewrite Hc.
  destruct (@contains_scan_strings (toLowerCase name) suf (Z.of_nat (2 * k)) Hs3)
    as [[Hr Hn] | [k' [Hr [Hk' Hn]]]]; rewrite Hr.
  - exists h'. split; [destruct fuel; reflexivity|].
    rewrite Hb, !all_names_app by assumption.
    now rewrite Hs1, Hs3, Hd, Hn.
  - replace (Z.of_nat (2 * k) + 2 * Z.of_nat k')
      with (Z.of_nat (2 * (k + k'))) by lia.
    apply IH.
    + rewrite Hb, all_names_app by assumption. now rewrite Hs1, Hs3.
    + rewrite Hb, length_app. lia.
    + rewrite Hb, firstn_app, Hlen.
      rewrite firstn_all2 by lia.
      replace (2 * (k + k') - 2 * k)%nat with (2 * k')%nat by lia.
      rewrite all_names_app by assumption. now rewrite Hd, Hn.
    + rewrite Hb, length_app. lia.
Qed.

(** On a list whose names are all strings, [delete] returns and leaves
    no match for the name, in whatever casing [has] is asked. *)
Lemma delete_then_has_strings h name name' :
  all_names is_string (backer h) = true ->
  toLowerCase name' = toLowerCase name ->
  exists h',
    delete name h = (h', Ret tt) /\
    all_names is_string (backer h') = true /\
    has h' name' = Ret false.
Proof.
  intros Hs Hcase.
  assert (Hdone : exists h',
             delete name h = (h', Ret tt) /\
             all_names is_string (backer h') = true /\
             all_names (differs (toLowerCase name)) (backer h') = true).
  { unfold delete. rewrite contains_from_index by lia.
    destruct (Z.gtb_spec 0 (len h)); [unfold len in *; lia|].
    cbn [Z.to_nat skipn].
    destruct (@contains_scan_strings (toLowerCase name) (backer h) 0 Hs)
      as [[Hr Hn] | [k [Hr [Hk Hn]]]]; rewrite Hr.
    - exists h. split; [destruct (List.length (backer h)); reflexivity|].
      now split.
    - replace (0 + 2 * Z.of_nat k) with (Z.of_nat (2 * k)) by lia.
      apply delete_loop_strings; try assumption. lia. }
  destruct Hdone as [h' [Hdel [Hs' Hd']]].
  exists h'. split; [exact Hdel|]. split; [exact Hs'|].
  unfold has. rewrite (@contains_none h' name'); [reflexivity | exact Hs'|].
  now rewrite Hcase.
Qed.


(** *** The claims *)

Definition empty : t := constructor None.

(** After [op], whatever its outcome. *)
Definition after (op : t -> t * outcome unit) (h : t) : t := fst (op h).

(** C2 (refuted on the code).  The claim: [append] under a name the list
    already has stores the new pair under the first match's original
    casing.  The code stores [this[idx]], not [this.backer[idx]]: after
    [append("Content-Type", "a")], [append("content-type", "b")] finds
    the match at index 0 and pushes the pair ([undefined], "b"); the
    list then throws on the next scan that reaches that slot. *)
Theorem C2_append_stores_undefined_name :
  let h1 := after (append "Content-Type" "a") empty in
  let h2 := after (append "content-type" "b") h1 in
  contains h1 "content-type" 0 = Ret 0 /\
  append "content-type" "b" h1 =
    (mk [Str "Content-Type"; Str "a"; Undefined; Str "b"], Ret tt) /\
  backer h2 <> [Str "Content-Type"; Str "a"; Str "Content-Type"; Str "b"] /\
  contains h2 "content-type" 2 = Throw (undefined_has_no "toLowerCase").
Proof. repeat split; try reflexivity. discriminate. Qed.

(** C3 (refuted on the code).  The claim: [get] joins the values of the
    matching pairs with ", ".  The code reads [this[index + 1]], not
    [this.backer[index + 1]]: on the list [("n", "v1")] it returns the
    text "undefined", on [("n", "v1"), ("n", "v2")] it returns
    "undefined, undefined", and after [append("n", "v1")],
    [append("n", "v2")] it throws.  Only the [null] answer is as
    claimed. *)
Theorem C3_get_returns_undefined_text :
  get (constructor (Some [Str "n"; Str "v1"])) "n" = Ret (Some "undefined"%string) /\
  get (constructor (Some [Str "n"; Str "v1"; Str "n"; Str "v2"])) "N"
    = Ret (Some "undefined, undefined"%string) /\
  get (after (append "n" "v1") empty) "n" = Ret (Some "undefined"%string) /\
  get (after (append "n" "v2") (after (append "n" "v1") empty)) "n"
    = Throw (undefined_has_no "toLowerCase") /\
  get (after (append "n" "v1") empty) "m" = Ret None.
Proof. repeat split; reflexivity. Qed.

(** C4 (refuted on the code).  The claim: after appending "b", "A", "a"
    with values 1, 2, 3, [sortAndCombine()] is [("a", "2, 3"), ("b", "1")].
    The code reads [this[i]], not [this.backer[i]], and calls
    [toLowerCase] on it: the call throws on this list, as on every list
    that is not empty.  (The list itself is not written to.) *)
Theorem C4_sortAndCombine_throws :
  let h := after (append "a" "3")
             (after (append "A" "2") (after (append "b" "1") empty)) in
  backer h = [Str "b"; Str "1"; Str "A"; Str "2"; Undefined; Str "3"] /\
  sortAndCombine h = Throw (undefined_has_no "toLowerCase") /\
  sortAndCombine
    (constructor (Some [Str "b"; Str "1"; Str "A"; Str "2"; Str "a"; Str "3"]))
    = Throw (undefined_has_no "toLowerCase").
Proof. repeat split; reflexivity. Qed.

(** C9 (refuted on the code).  The claim: on every reachable list,
    [delete(name)] completes and [has] is false afterwards for every
    casing.  Two appends under one name leave [undefined] in a name
    slot (see C2); [delete] then removes the first pair and throws on
    its next scan, and so does [has].  (Where every name slot holds a
    string the claim holds: [delete_then_has_strings].) *)
Theorem C9_delete_throws_on_reachable_list :
  let h := after (append "a" "2") (after (append "a" "1") empty) in
  reachable h /\
  delete "a" h = (mk [Undefined; Str "2"], Throw (undefined_has_no "toLowerCase")) /\
  has (after (delete "a") h) "A" = Throw (undefined_has_no "toLowerCase").
Proof.
  repeat split; try reflexivity.
  apply reach_append, reach_append, reach_new.
Qed.

(** C10 (refuted on the code).  The claim: after construction and
    after every public operation the backing array has even length, with
    a header name at every even index and its value at the odd index
    after it.  A second [append] under a name that is present stores
    [undefined] in the name slot (the defect of C2): a list built empty
    and changed by two appends holds no header name at index 2, where
    the claim has the name of the first pair. *)
Theorem C10_name_slot_holds_undefined :
  let h := after (append "A" "2") (after (append "a" "1") empty) in
  reachable h /\
  backer h = [Str "a"; Str "1"; Undefined; Str "2"] /\
  backer h <> [Str "a"; Str "1"; Str "a"; Str "2"] /\
  nth_error (backer h) 2 = Some Undefined /\
  all_names is_string (backer h) = false.
Proof.
  cbv zeta. split; [apply reach_append, reach_append, reach_new|].
  repeat split; try reflexivity. discriminate.
Qed.

(** *** Further properties of the header list *)

(** The list without the pairs whose name is a match for the lower-cased
    name [n]; the other pairs stay, in their order. *)
Fixpoint remove_pairs (n : string) (a : list value) : list value :=
  match a with
  | [] => []
  | k :: rest =>
      match rest with
      | [] => if differs n k then [k] else []
      | v :: a' =>
          if differs n k then k :: v :: remove_pairs n a'
          else remove_pairs n a'
      end
  end.

Lemma remove_pairs_length n a :
  (List.length (remove_pairs n a) <= List.length a)%nat.
Proof.
  induction a as [| x | x y a IH] using pairwise_ind; cbn [remove_pairs].
  - lia.
  - destruct (differs n x); simpl; lia.
  - destruct (differs n x); simpl; lia.
Qed.

Lemma remove_pairs_none n a :
  all_names (differs n) a = true -> remove_pairs n a = a.
Proof.
  induction a as [| x | x y a IH] using pairwise_ind; cbn [remove_pairs all_names].
  - reflexivity.
  - rewrite andb_true_r. now intros ->.
  - intros H. apply andb_prop in H. destruct H as [-> H]. now rewrite IH.
Qed.

Lemma remove_pairs_no_match n a :
  all_names (differs n) (remove_pairs n a) = true.
Proof.
  induction a as [| x | x y a IH] using pairwise_ind; cbn [remove_pairs].
  - reflexivity.
  - destruct (differs n x) eqn:E; cbn [all_names]; [now rewrite E | reflexivity].
  - destruct (differs n x) eqn:E; cbn [all_names]; [now rewrite E, IH | exact IH].
Qed.

Lemma remove_pairs_strings n a :
  all_names is_string a = true ->
  all_names is_string (remove_pairs n a) = true.
Proof.
  induction a as [| x | x y a IH] using pairwise_ind;
    cbn [remove_pairs all_names].
  - reflexivity.
  - rewrite andb_true_r. intros H.
    destruct (differs n x); cbn [all_names]; [now rewrite H | reflexivity].
  - intros H. apply andb_prop in H. destruct H as [Hx H].
    destruct (differs n x); cbn [all_names]; [now rewrite Hx, IH | now apply IH].
Qed.

(** Pairs under another name are not touched. *)
Lemma remove_pairs_other n m a :
  n <> m ->
  all_names (differs m) (remove_pairs n a) = all_names (differs m) a.
Proof.
  intros Hnm.
  assert (Hk : forall k, differs n k = false -> differs m k = true).
  { intros [|s]; cbn [differs]; [discriminate|].
    intros H. apply negb_false_iff, String.eqb_eq in H.
    apply negb_true_iff, String.eqb_neq. congruence. }
  induction a as [| x | x y a IH] using pairwise_ind;
    cbn [remove_pairs all_names].
  - reflexivity.
  - destruct (differs n x) eqn:E; cbn [all_names]; [reflexivity|].
    now rewrite (Hk x E).
  - destruct (differs n x) eqn:E; cbn [all_names]; rewrite IH; [reflexivity|].
    now rewrite (Hk x E).
Qed.

(** The scan of [contains], told by what [remove_pairs] removes: either
    there is no match, or the scan stops at the first pair that
    [remove_pairs] drops. *)
Lemma contains_scan_remove n (a : list value) :
  forall i,
    all_names is_string a = true ->
    (contains_scan n i a = Ret (-1) /\ all_names (differs n) a = true) \/
    (exists k, contains_scan n i a = Ret (i + 2 * Z.of_nat k) /\
               (2 * k < List.length a)%nat /\
               remove_pairs n a
                 = firstn (2 * k) a ++ remove_pairs n (skipn (2 * k + 2) a)).
Proof.
  induction a as [| x | x y a IH] using pairwise_ind; intros i Hs.
  - left. split; reflexivity.
  - destruct x as [|s]; [discriminate|].
    cbn [contains_scan value_toLowerCase all_names differs remove_pairs].
    destruct (String.eqb (toLowerCase s) n) eqn:E; cbn [negb].
    + right. exists 0%nat. split; [f_equal; lia|].
      split; [simpl; lia | reflexivity].
    + left. split; reflexivity.
  - destruct x as [|s]; [discriminate|]. cbn [all_names is_string andb] in Hs.
    cbn [contains_scan value_toLowerCase remove_pairs differs].
    destruct (String.eqb (toLowerCase s) n) eqn:E; cbn [negb].
    + right. exists 0%nat. split; [f_equal; lia|].
      split; [simpl; lia | reflexivity].
    + destruct (IH (i + 2) Hs) as [[Hc Hn] | [k [Hc [Hk Hn]]]].
      * left. split; [exact Hc|]. cbn [all_names differs]. now rewrite E, Hn.
      * right. exists (S k). split; [rewrite Hc; f_equal; lia|].
        split; [simpl List.length; lia|].
        replace (2 * S k)%nat with (S (S (2 * k))) by lia.
        cbn [firstn skipn plus app]. now rewrite Hn.
Qed.

(** The loop of [delete], entered at an index [2 * k]: it removes the
    pair there and every later pair under the name. *)
Lemma delete_loop_removes fuel name :
  forall h k,
    all_names is_string (backer h) = true ->
    (2 * k < List.length (backer h))%nat ->
    (List.length (backer h) <= fuel + 2 * k)%nat ->
    delete_loop fuel name (Z.of_nat (2 * k)) h
      = (mk (firstn (2 * k) (backer h)
             ++ remove_pairs (toLowerCase name) (skipn (2 * k + 2) (backer h))),
         Ret tt).
Proof.
  induction fuel as [|fuel IH]; intros h k Hs Hk Hfuel; [lia|].
  cbn [delete_loop].
  destruct (Z.eqb_spec (Z.of_nat (2 * k)) (-1)) as [E|_]; [lia|].
  set (h' := splice2 h (Z.of_nat (2 * k))).
  set (pre := firstn (2 * k) (backer h)) in *.
  set (suf := skipn (2 * k + 2) (backer h)).
  assert (Hb : backer h' = pre ++ suf) by apply backer_splice2.
  assert (Hlen : List.length pre = (2 * k)%nat)
    by (unfold pre; rewrite length_firstn; lia).
  assert (Hpre : exists j, List.length pre = (2 * j)%nat) by (now exists k).
  rewrite (@all_names_split is_string (backer h) k) in Hs by lia.
  apply andb_prop in Hs. destruct Hs as [Hs1 Hs2]. fold pre in Hs1.
  assert (Hs3 : all_names is_string suf = true).
  { unfold suf. replace (2 * k + 2)%nat with (2 + 2 * k)%nat by lia.
    rewrite <- skipn_skipn. now apply all_names_skip2. }
  assert (Hsuf : (List.length suf <= fuel)%nat)
    by (unfold suf; rewrite length_skipn; lia).
  assert (Hc : contains h' name (Z.of_nat (2 * k))
               = contains_scan (toLowerCase name) (Z.of_nat (2 * k)) suf).
  { rewrite contains_from_index by lia. unfold len. rewrite Hb, length_app, Hlen.
    destruct (Z.gtb_spec (Z.of_nat (2 * k)) (Z.of_nat (2 * k + List.length suf)));
      [lia|].
    rewrite Nat2Z.id, skipn_app, Hlen, Nat.sub_diag.
    rewrite skipn_all2 by lia. reflexivity. }
  rewrite Hc.
  destruct (@contains_scan_remove (toLowerCase name) suf (Z.of_nat (2 * k)) Hs3)
    as [[Hr Hn] | [k' [Hr [Hk' Hn]]]]; rewrite Hr.
  - rewrite (remove_pairs_none _ _ Hn).
    replace (delete_loop fuel name (-1) h') with (h', Ret tt)
      by (destruct fuel; reflexivity).
    f_equal. destruct h' as [b]. cbn [backer] in Hb. now rewrite Hb.
  - replace (Z.of_nat (2 * k) + 2 * Z.of_nat k')
      with (Z.of_nat (2 * (k + k'))) by lia.
    rewrite IH.
    + rewrite Hb, Hn. f_equal. f_equal.
      rewrite firstn_app, Hlen, firstn_all2 by lia.
      replace (2 * (k + k') - 2 * k)%nat with (2 * k')%nat by lia.
      rewrite skipn_app, Hlen, skipn_all2 by lia.
      replace (2 * (k + k') + 2 - 2 * k)%nat with (2 * k' + 2)%nat by lia.
      cbn [app]. now rewrite app_assoc.
    + rewrite Hb, all_names_app by assumption. now rewrite Hs1, Hs3.
    + rewrite Hb, length_app. lia.
    + rewrite Hb, length_app. lia.
Qed.

Lemma delete_is_remove_pairs h name :
  all_names is_string (backer h) = true ->
  delete name h = (mk (remove_pairs (toLowerCase name) (backer h)), Ret tt).
Proof.
  intros Hs. unfold delete. rewrite contains_from_index by lia.
  destruct (Z.gtb_spec 0 (len h)); [unfold len in *; lia|].
  cbn [Z.to_nat skipn].
  destruct (@contains_scan_remove (toLowerCase name) (backer h) 0 Hs)
    as [[Hr Hn] | [k [Hr [Hk Hn]]]]; rewrite Hr.
  - rewrite (remove_pairs_none _ _ Hn).
    replace (delete_loop (List.length (backer h)) name (-1) h) with (h, Ret tt)
      by (destruct (List.length (backer h)); reflexivity).
    now destruct h.
  - replace (0 + 2 * Z.of_nat k) with (Z.of_nat (2 * k)) by lia.
    rewrite delete_loop_removes by (assumption || lia). now rewrite Hn.
Qed.

(** On a list whose names are all strings, [delete] returns, and what it
    leaves is the list without the pairs whose name matches
    case-insensitively; the other pairs keep their order. *)
Theorem delete_removes_matching_pairs h name :
  all_names is_string (backer h) = true ->
  delete name h = (mk (remove_pairs (toLowerCase name) (backer h)), Ret tt).
Proof. intros. apply delete_is_remove_pairs; assumption. Qed.

Definition two_types : t :=
  mk [Str "Accept"; Str "a"; Str "Host"; Str "h"; Str "accept"; Str "b"].

Lemma delete_removes_matching_pairs_witness :
  delete "ACCEPT" two_types = (mk [Str "Host"; Str "h"], Ret tt).
Proof.
  exact (@delete_removes_matching_pairs two_types "ACCEPT" eq_refl).
Defined.

Lemma has_is_some_match h name :
  all_names is_string (backer h) = true ->
  has h name
    = Ret (negb (all_names (differs (toLowerCase name)) (backer h))).
Proof.
  intros Hs. unfold has. rewrite contains_from_index by lia.
  destruct (Z.gtb_spec 0 (len h)); [unfold len in *; lia|].
  cbn [Z.to_nat skipn].
  destruct (@contains_scan_remove (toLowerCase name) (backer h) 0 Hs)
    as [[Hr Hn] | [k [Hr [Hk Hn]]]]; rewrite Hr.
  - now rewrite Hn.
  - destruct (Z.eqb_spec (0 + 2 * Z.of_nat k) (-1)) as [E|_]; [lia|].
    destruct (all_names (differs (toLowerCase name)) (backer h)) eqn:Ea;
      [|reflexivity].
    exfalso. rewrite (remove_pairs_none _ _ Ea) in Hn.
    apply (f_equal (@List.length value)) in Hn.
    rewrite length_app, length_firstn in Hn.
    pose proof (remove_pairs_length (toLowerCase name)
                  (skipn (2 * k + 2) (backer h))) as Hle.
    rewrite length_skipn in Hle. lia.
Qed.

(** [has] on a list of string names: true exactly when some name slot is
    a match, whatever the casing of the question. *)
Theorem has_iff_some_name_matches h name :
  all_names is_string (backer h) = true ->
  has h name
    = Ret (negb (all_names (differs (toLowerCase name)) (backer h))).
Proof. intros. apply has_is_some_match; assumption. Qed.

Lemma has_iff_some_name_matches_witness :
  has two_types "HOST" = Ret true /\ has two_types "Cookie" = Ret false.
Proof.
  split.
  - exact (@has_iff_some_name_matches two_types "HOST" eq_refl).
  - exact (@has_iff_some_name_matches two_types "Cookie" eq_refl).
Defined.

(** After [delete(name)], [has] answers as before for every name that is
    not a match for [name], and false for those that are. *)
Theorem delete_leaves_other_names h name other :
  all_names is_string (backer h) = true ->
  has (fst (delete name h)) other
    = if String.eqb (toLowerCase other) (toLowerCase name)
      then Ret false
      else has h other.
Proof.
  intros Hs. rewrite delete_is_remove_pairs by exact Hs. cbn [fst].
  rewrite !has_is_some_match
    by (try exact Hs; now apply remove_pairs_strings).
  cbn [backer].
  destruct (String.eqb_spec (toLowerCase other) (toLowerCase name)) as [E|E].
  - now rewrite E, remove_pairs_no_match.
  - rewrite remove_pairs_other by congruence. reflexivity.
Qed.

Lemma delete_leaves_other_names_witness :
  has (fst (delete "accept" two_types)) "host" = Ret true /\
  has (fst (delete "accept" two_types)) "Accept" = Ret false.
Proof.
  split.
  - exact (@delete_leaves_other_names two_types "accept" "host" eq_refl).
  - exact (@delete_leaves_other_names two_types "accept" "Accept" eq_refl).
Defined.

Lemma set_is_remove_then_push h name value :
  all_names is_string (backer h) = true ->
  set name value h
    = (mk (remove_pairs (toLowerCase name) (backer h) ++ [Str name; Str value]),
       Ret tt).
Proof.
  intros Hs. unfold set.
  rewrite delete_is_remove_pairs by exact Hs.
  apply append_fresh_name. apply contains_none; cbn [backer].
  - now apply remove_pairs_strings.
  - apply remove_pairs_no_match.
Qed.

(** On a list whose names are all strings, [set] returns and leaves the
    other pairs, in their order, followed by the one pair ([name],
    [value]), with the name as given. *)
Theorem set_leaves_one_pair_at_end h name value :
  all_names is_string (backer h) = true ->
  set name value h
    = (mk (remove_pairs (toLowerCase name) (backer h) ++ [Str name; Str value]),
       Ret tt).
Proof. intros. apply set_is_remove_then_push; assumption. Qed.

Lemma set_leaves_one_pair_at_end_witness :
  set "ACCEPT" "c" two_types
    = (mk [Str "Host"; Str "h"; Str "ACCEPT"; Str "c"], Ret tt).
Proof.
  exact (@set_leaves_one_pair_at_end two_types "ACCEPT" "c" eq_refl).
Defined.

(** A match found by the scan is found again when slots are added at the
    end. *)
Lemma contains_scan_app n (a b : list value) :
  forall i idx,
    contains_scan n i a = Ret idx -> idx <> -1 ->
    contains_scan n i (a ++ b) = Ret idx.
Proof.
  induction a as [| x | x y a IH] using pairwise_ind; intros i idx H Hne.
  - cbn in H. congruence.
  - cbn [contains_scan app] in *.
    destruct (value_toLowerCase x) as [key| |]; try discriminate.
    destruct (String.eqb key n); [exact H | congruence].
  - cbn [contains_scan app] in *.
    destruct (value_toLowerCase x) as [key| |]; try discriminate.
    destruct (String.eqb key n); [exact H | now apply IH].
Qed.

(** On a list of whole pairs whose names are strings, [append] returns
    and [has] is true afterwards for the name in any casing. *)
Theorem append_then_has h name value name' :
  paired (backer h) ->
  all_names is_string (backer h) = true ->
  toLowerCase name' = toLowerCase name ->
  snd (append name value h) = Ret tt /\
  has (fst (append name value h)) name' = Ret true.
Proof.
  intros Hp Hs Hcase.
  destruct (all_names (differs (toLowerCase name)) (backer h)) eqn:Ed.
  - rewrite (append_fresh_name h name value) by (now apply contains_none).
    split; [reflexivity|]. cbn [fst].
    apply paired_even_length in Hp.
    rewrite has_is_some_match; cbn [backer];
      rewrite all_names_app by exact Hp.
    + rewrite Hcase. cbn [all_names differs].
      now rewrite String.eqb_refl, andb_false_r.
    + now rewrite Hs.
  - pose proof (has_is_some_match h name Hs) as Hh.
    rewrite Ed in Hh. unfold has in Hh.
    destruct (contains h name 0) as [idx| |] eqn:Ec; try discriminate.
    assert (Hidx : idx <> -1).
    { destruct (Z.eqb_spec idx (-1)); [discriminate | assumption]. }
    rewrite (append_existing_name h name value Ec Hidx).
    split; [reflexivity|]. cbn [fst].
    unfold has, contains in *. rewrite Hcase. cbn [backer].
    destruct (Z.gtb_spec 0 (len h)); [unfold len in *; lia|].
    destruct (Z.gtb_spec 0 (len (mk (backer h ++ [Undefined; Str value]))));
      [unfold len in *; lia|].
    cbn [Z.to_nat skipn Z.ltb Z.compare] in *.
    rewrite (@contains_scan_app _ _ [Undefined; Str value] _ _ Ec Hidx).
    destruct (Z.eqb_spec idx (-1)); [contradiction | reflexivity].
Qed.

Lemma append_then_has_witness :
  snd (append "HOST" "x" two_types) = Ret tt /\
  has (fst (append "HOST" "x" two_types)) "host" = Ret true.
Proof.
  apply append_then_has; try reflexivity.
  exists [(Str "Accept", Str "a"); (Str "Host", Str "h"); (Str "accept", Str "b")].
  reflexivity.
Defined.

(** The loop of [get] never throws on a list of string names. *)
Lemma get_loop_returns fuel h name :
  forall k list,
    all_names is_string (backer h) = true ->
    (2 * k < List.length (backer h))%nat ->
    (List.length (backer h) <= fuel + 2 * k)%nat ->
    exists s, get_loop fuel h name (Z.of_nat (2 * k)) list = Ret s.
Proof.
  induction fuel as [|fuel IH]; intros k list Hs Hk Hfuel; [lia|].
  cbn [get_loop].
  destruct (Z.eqb_spec (Z.of_nat (2 * k)) (-1)) as [E|_]; [lia|].
  match goal with
  | |- context [get_loop fuel h name _ ?l] => generalize l; intros list'
  end.
  rewrite contains_from_index by lia.
  destruct (Z.gtb_spec (Z.of_nat (2 * k) + 2) (len h)).
  - exists list'. destruct fuel; reflexivity.
  - replace (Z.to_nat (Z.of_nat (2 * k) + 2)) with (2 * (k + 1))%nat by lia.
    assert (Hsk : all_names is_string (skipn (2 * (k + 1)) (backer h)) = true).
    { rewrite (@all_names_split is_string (backer h) (k + 1)) in Hs
        by (unfold len in *; lia).
      now apply andb_prop in Hs. }
    destruct (@contains_scan_remove (toLowerCase name)
                (skipn (2 * (k + 1)) (backer h)) (Z.of_nat (2 * k) + 2) Hsk)
      as [[Hr _] | [k' [Hr [Hk' _]]]]; rewrite Hr.
    + exists list'. destruct fuel; reflexivity.
    + replace (Z.of_nat (2 * k) + 2 + 2 * Z.of_nat k')
        with (Z.of_nat (2 * (k + 1 + k'))) by lia.
      rewrite length_skipn in Hk'.
      apply IH; [exact Hs | lia | lia].
Qed.

(** On a list whose names are all strings, [get] does not throw, and it
    answers [null] exactly when [has] answers false. *)
Theorem get_is_null_iff_has_is_false h name :
  all_names is_string (backer h) = true ->
  (has h name = Ret false /\ get h name = Ret None) \/
  (has h name = Ret true /\ exists s, get h name = Ret (Some s)).
Proof.
  intros Hs. unfold has, get. rewrite !contains_from_index by lia.
  destruct (Z.gtb_spec 0 (len h)); [unfold len in *; lia|].
  cbn [Z.to_nat skipn].
  destruct (@contains_scan_remove (toLowerCase name) (backer h) 0 Hs)
    as [[Hr _] | [k [Hr [Hk _]]]]; rewrite Hr.
  - left. split; reflexivity.
  - right. destruct (Z.eqb_spec (0 + 2 * Z.of_nat k) (-1)) as [E|_]; [lia|].
    split; [reflexivity|].
    replace (0 + 2 * Z.of_nat k) with (Z.of_nat (2 * k)) by lia.
    destruct (@get_loop_returns (List.length (backer h)) h name k ""%string
                Hs Hk ltac:(lia)) as [s Hg].
    fold (contains h name).
    exists s.
    change (match get_loop (List.length (backer h)) h name (Z.of_nat (2 * k)) ""
            with
            | Ret list => Ret (Some list)
            | Throw e => Throw e
            | OutOfFuel => OutOfFuel
            end = Ret (Some s)).
    now rewrite Hg.
Qed.

Lemma get_is_null_iff_has_is_false_witness :
  (has two_types "cookie" = Ret false /\ get two_types "cookie" = Ret None) \/
  (has two_types "cookie" = Ret true /\
   exists s, get two_types "cookie" = Ret (Some s)).
Proof.
  exact (@get_is_null_iff_has_is_false two_types "cookie" eq_refl).
Defined.

End HeadersListSpec.

(** ** The guarded view *)

Module HeadersSpec.
Import JS Headers.

Section Guarded.

Variable isValidHeaderName : string -> bool.
Variable isValidHeaderValue : string -> bool.

Let append := Headers.append isValidHeaderName isValidHeaderValue.
Let set := Headers.set isValidHeaderName isValidHeaderValue.
Let delete := Headers.delete isValidHeaderName.

(** C5.  Validation comes first and the guard second.  Whatever the
    guard, an illegal name makes [append], [set] and [delete] throw an
    InvalidArgument error, and a legal name with an illegal
    (normalized) value makes [append] and [set] throw one.  With
    legal arguments and the guard "immutable", [append], [set] and
    [delete] throw.  In each case the Headers object, and with it
    the header list, is as before the call. *)
Theorem C5_validation_then_immutable_guard (hs : t) (name value : string) :
  (isValidHeaderName name = false ->
     append name value hs
       = (hs, Throw (InvalidArgument "Headers.append" name "header name")) /\
     set name value hs
       = (hs, Throw (InvalidArgument "Headers.set" name "header name")) /\
     delete name hs
       = (hs, Throw (InvalidArgument "Headers.delete" name "header name")))
  /\
  (isValidHeaderName name = true ->
   isValidHeaderValue (headerValueNormalize value) = false ->
     append name value hs
       = (hs, Throw (InvalidArgument "Headers.append"
                       (headerValueNormalize value) "header value")) /\
     set name value hs
       = (hs, Throw (InvalidArgument "Headers.set"
                       (headerValueNormalize value) "header value")))
  /\
  (kGuard hs = immutable ->
   isValidHeaderName name = true ->
     delete name hs = (hs, Throw (TypeError "immutable")) /\
     (isValidHeaderValue (headerValueNormalize value) = true ->
        append name value hs = (hs, Throw (TypeError "immutable")) /\
        set name value hs = (hs, Throw (TypeError "immutable")))).
Proof.
  unfold append, set, delete, Headers.append, Headers.set, Headers.delete.
  repeat split.
  - rewrite H. reflexivity.
  - rewrite H. reflexivity.
  - rewrite H. reflexivity.
  - rewrite H, H0. reflexivity.
  - rewrite H, H0. reflexivity.
  - rewrite H, H0. reflexivity.
  - rewrite H, H0, H1. reflexivity.
  - rewrite H, H0, H1. reflexivity.
Qed.

End Guarded.

(** Stand-ins for the token grammar, to run the methods on examples: a
    name is a non-empty run of letters, digits and hyphens, a value has
    no NUL, CR or LF. *)
Fixpoint all_chars (ok : ascii -> bool) (s : string) : bool :=
  match s with
  | EmptyString => true
  | String c r => ok c && all_chars ok r
  end.

Definition name_char (c : ascii) : bool :=
  let n := nat_of_ascii c in
  ((48 <=? n) && (n <=? 57) || (65 <=? n) && (n <=? 90) ||
   (97 <=? n) && (n <=? 122) || (n =? 45))%nat.

Definition value_char (c : ascii) : bool :=
  let n := nat_of_ascii c in
  negb ((n =? 0) || (n =? 10) || (n =? 13))%nat.

Definition sample_isValidHeaderName (s : string) : bool :=
  negb (String.eqb s "") && all_chars name_char s.

Definition sample_isValidHeaderValue (s : string) : bool :=
  all_chars value_char s.

Definition frozen : t :=
  mk (HeadersList.mk [Str "Accept"; Str "text/html"]) immutable.

Lemma C5_validation_then_immutable_guard_witness :
  (Headers.append sample_isValidHeaderName sample_isValidHeaderValue
     "bad name" "v" frozen
   = (frozen, Throw (InvalidArgument "Headers.append" "bad name" "header name")))
  /\
  (Headers.set sample_isValidHeaderName sample_isValidHeaderValue
     "Accept" (String "010" "a" ++ String "010" "b ") frozen
   = (frozen, Throw (InvalidArgument "Headers.set"
                       ("a" ++ String "010" "b") "header value")))
  /\
  (Headers.delete sample_isValidHeaderName "accept" frozen
   = (frozen, Throw (TypeError "immutable")))
  /\
  (Headers.append sample_isValidHeaderName sample_isValidHeaderValue
     "Accept" " text/plain " frozen
   = (frozen, Throw (TypeError "immutable"))).
Proof.
  pose proof (C5_validation_then_immutable_guard
                sample_isValidHeaderName sample_isValidHeaderValue
                frozen "bad name" "v") as [Hname _].
  pose proof (C5_validation_then_immutable_guard
                sample_isValidHeaderName sample_isValidHeaderValue
                frozen "Accept" (String "010" "a" ++ String "010" "b "))
    as [_ [Hvalue _]].
  pose proof (C5_validation_then_immutable_guard
                sample_isValidHeaderName sample_isValidHeaderValue
                frozen "accept" "v") as [_ [_ Hdel]].
  pose proof (C5_validation_then_immutable_guard
                sample_isValidHeaderName sample_isValidHeaderValue
                frozen "Accept" " text/plain ") as [_ [_ Himm]].
  split; [exact (proj1 (Hname eq_refl))|].
  split; [exact (proj2 (Hvalue eq_refl eq_refl))|].
  split; [exact (proj1 (Hdel eq_refl eq_refl))|].
  exact (proj1 (proj2 (Himm eq_refl eq_refl) eq_refl)).
Defined.

(** *** [headerValueNormalize] *)

Definition starts_with_whitespace (s : string) : bool :=
  match s with
  | EmptyString => false
  | String c _ => is_http_whitespace c
  end.

Fixpoint ends_with_whitespace (s : string) : bool :=
  match s with
  | EmptyString => false
  | String c r =>
      match r with
      | EmptyString => is_http_whitespace c
      | _ => ends_with_whitespace r
      end
  end.

Definition whitespace_only (s : string) : bool :=
  all_chars is_http_whitespace s.

Ltac step_strings :=
  unfold whitespace_only in *;
  cbn [strip_trailing strip_leading all_chars String.append
       starts_with_whitespace ends_with_whitespace] in *.

Lemma append_empty_r (s : string) : (s ++ "")%string = s.
Proof. induction s as [|c s IH]; simpl; [reflexivity | now rewrite IH]. Qed.

Lemma append_assoc (a b c : string) :
  ((a ++ b) ++ c)%string = (a ++ (b ++ c))%string.
Proof. induction a as [|x a IH]; simpl; [reflexivity | now rewrite IH]. Qed.

Lemma strip_leading_whitespace_only s :
  whitespace_only s = true -> strip_leading s = EmptyString.
Proof.
  induction s as [|c s IH]; step_strings; [reflexivity|].
  intros H. apply andb_prop in H. destruct H as [-> H]. now apply IH.
Qed.

Lemma strip_leading_skips pre s :
  whitespace_only pre = true ->
  strip_leading (pre ++ s) = strip_leading s.
Proof.
  induction pre as [|c pre IH]; step_strings; [reflexivity|].
  intros H. apply andb_prop in H. destruct H as [-> H]. now apply IH.
Qed.

Lemma strip_leading_start s :
  starts_with_whitespace (strip_leading s) = false.
Proof.
  induction s as [|c s IH]; step_strings; [reflexivity|].
  destruct (is_http_whitespace c) eqn:E; [exact IH | step_strings; exact E].
Qed.

Lemma strip_leading_fixed s :
  starts_with_whitespace s = false -> strip_leading s = s.
Proof. destruct s as [|c s]; step_strings; [reflexivity | now intros ->]. Qed.

Lemma strip_leading_split s :
  exists pre, whitespace_only pre = true /\
              s = (pre ++ strip_leading s)%string.
Proof.
  induction s as [|c s [pre [Hp Hs]]]; [now exists EmptyString|].
  step_strings. destruct (is_http_whitespace c) eqn:E.
  - exists (String c pre). split; [step_strings; now rewrite E, Hp|].
    step_strings. now rewrite <- Hs.
  - now exists EmptyString.
Qed.

Lemma strip_trailing_whitespace_only s :
  whitespace_only s = true -> strip_trailing s = EmptyString.
Proof.
  induction s as [|c s IH]; step_strings; [reflexivity|].
  intros H. apply andb_prop in H. destruct H as [Hc H].
  now rewrite (IH H), Hc.
Qed.

Lemma strip_trailing_skips s post :
  whitespace_only post = true ->
  strip_trailing (s ++ post) = strip_trailing s.
Proof.
  intros Hp. induction s as [|c s IH]; step_strings.
  - now apply strip_trailing_whitespace_only.
  - now rewrite IH.
Qed.

Lemma strip_trailing_end s :
  ends_with_whitespace (strip_trailing s) = false.
Proof.
  induction s as [|c s IH]; step_strings; [reflexivity|].
  destruct (strip_trailing s) as [|d r] eqn:E.
  - destruct (is_http_whitespace c) eqn:Ec; step_strings; [reflexivity | exact Ec].
  - exact IH.
Qed.

Lemma strip_trailing_fixed s :
  ends_with_whitespace s = false -> strip_trailing s = s.
Proof.
  induction s as [|c s IH]; step_strings; [reflexivity|].
  destruct s as [|d r].
  - step_strings. now intros ->.
  - intros H. rewrite (IH H). reflexivity.
Qed.

Lemma strip_trailing_split s :
  exists post, whitespace_only post = true /\
               s = (strip_trailing s ++ post)%string.
Proof.
  induction s as [|c s [post [Hp Hs]]]; [now exists EmptyString|].
  step_strings. destruct (strip_trailing s) as [|d r] eqn:E.
  - step_strings. destruct (is_http_whitespace c) eqn:Ec.
    + exists (String c post). split; [step_strings; now rewrite Ec, Hp|].
      step_strings. now rewrite <- Hs.
    + exists post. split; [exact Hp|]. step_strings. now rewrite <- Hs.
  - exists post. split; [exact Hp|]. step_strings. now rewrite <- Hs.
Qed.

Lemma strip_trailing_start s :
  starts_with_whitespace s = false ->
  starts_with_whitespace (strip_trailing s) = false.
Proof.
  destruct s as [|c s]; step_strings; [reflexivity|]. intros Hc.
  destruct (strip_trailing s); [rewrite Hc|]; step_strings; [exact Hc | exact Hc].
Qed.

(** What [headerValueNormalize] returns is the value between a run of
    HTTP white space at its start and one at its end, and has itself no
    white space at either end. *)
Theorem headerValueNormalize_trims (s : string) :
  (exists pre post,
      whitespace_only pre = true /\ whitespace_only post = true /\
      s = (pre ++ headerValueNormalize s ++ post)%string) /\
  starts_with_whitespace (headerValueNormalize s) = false /\
  ends_with_whitespace (headerValueNormalize s) = false.
Proof.
  unfold headerValueNormalize. split; [|split].
  - destruct (strip_leading_split s) as [pre [Hpre Hs]].
    destruct (strip_trailing_split (strip_leading s)) as [post [Hpost Ht]].
    exists pre, post. repeat split; try assumption.
    now rewrite <- Ht.
  - apply strip_trailing_start, strip_leading_start.
  - apply strip_trailing_end.
Qed.

Lemma normalize_surrounded
        (pre value post : string) :
  whitespace_only pre = true ->
  whitespace_only post = true ->
  headerValueNormalize (pre ++ value ++ post) = headerValueNormalize value /\
  headerValueNormalize (headerValueNormalize value) = headerValueNormalize value.
Proof.
  intros Hpre Hpost. unfold headerValueNormalize. split.
  - rewrite strip_leading_skips by exact Hpre.
    destruct (strip_leading_split value) as [p [Hp Hv]].
    rewrite Hv at 1. rewrite append_assoc, strip_leading_skips by exact Hp.
    pose proof (strip_leading_start value) as Hstart.
    destruct (strip_leading value) as [|c r] eqn:E.
    + step_strings. rewrite (strip_leading_whitespace_only _ Hpost).
      reflexivity.
    + rewrite strip_leading_fixed by exact Hstart.
      now apply strip_trailing_skips.
  - rewrite strip_leading_fixed
      by apply strip_trailing_start, strip_leading_start.
    apply strip_trailing_fixed, strip_trailing_end.
Qed.

(** White space around a value does not show in the normalized value;
    normalizing twice is normalizing once. *)
Theorem headerValueNormalize_ignores_surrounding_whitespace
        (pre value post : string) :
  whitespace_only pre = true ->
  whitespace_only post = true ->
  headerValueNormalize (pre ++ value ++ post) = headerValueNormalize value /\
  headerValueNormalize (headerValueNormalize value) = headerValueNormalize value.
Proof. intros. apply normalize_surrounded; assumption. Qed.

Lemma headerValueNormalize_ignores_surrounding_whitespace_witness :
  headerValueNormalize (String "009" " " ++ "a b" ++ String "013" (String "010" ""))
    = headerValueNormalize "a b" /\
  headerValueNormalize (headerValueNormalize "a b") = headerValueNormalize "a b".
Proof.
  exact (@headerValueNormalize_ignores_surrounding_whitespace
           (String "009" " ") "a b" (String "013" (String "010" ""))
           eq_refl eq_refl).
Defined.

(** *** The methods on an open guard, and [fill] *)

Section Open.

Variable isValidHeaderName : string -> bool.
Variable isValidHeaderValue : string -> bool.

Let append := Headers.append isValidHeaderName isValidHeaderValue.
Let set := Headers.set isValidHeaderName isValidHeaderValue.
Let delete := Headers.delete isValidHeaderName.
Let fill := Headers.fill isValidHeaderName isValidHeaderValue.
Let constructor_init :=
  Headers.constructor_init isValidHeaderName isValidHeaderValue.

Definition names_are_strings (hs : t) : Prop :=
  HeadersListSpec.all_names HeadersListSpec.is_string
    (HeadersList.backer (kHeadersList hs)) = true.

(** [append] and [set] see a value through [headerValueNormalize] only:
    white space around the value changes nothing, whatever the guard and
    whether or not the arguments are legal. *)
Theorem append_and_set_ignore_surrounding_whitespace
        (hs : t) (name pre value post : string) :
  whitespace_only pre = true ->
  whitespace_only post = true ->
  append name (pre ++ value ++ post) hs = append name value hs /\
  set name (pre ++ value ++ post) hs = set name value hs.
Proof.
  intros Hpre Hpost.
  destruct (@normalize_surrounded
              pre value post Hpre Hpost) as [Hn _].
  unfold append, set, Headers.append, Headers.set. cbv zeta.
  rewrite Hn. split; reflexivity.
Qed.

(** With a guard other than "immutable" and a legal name, [delete] on a
    list of string names returns and leaves the list without the pairs
    under the name (the list as it was when there is none). *)
Theorem Headers_delete_removes_matching_pairs (hs : t) (name : string) :
  kGuard hs <> immutable ->
  isValidHeaderName name = true ->
  names_are_strings hs ->
  delete name hs
    = (mk (HeadersList.mk
             (HeadersListSpec.remove_pairs (toLowerCase name)
                (HeadersList.backer (kHeadersList hs))))
          (kGuard hs),
       Ret tt).
Proof.
  intros Hg Hn Hs. unfold delete, Headers.delete. rewrite Hn. cbn [negb].
  rewrite (HeadersListSpec.has_is_some_match _ name Hs).
  rewrite (HeadersListSpec.delete_is_remove_pairs _ name Hs).
  destruct hs as [[a] g]. cbn [kGuard kHeadersList HeadersList.backer] in *.
  destruct (HeadersListSpec.all_names _ a) eqn:Ea; cbn [negb].
  - rewrite (HeadersListSpec.remove_pairs_none _ _ Ea).
    destruct g; try reflexivity. contradiction.
  - destruct g; try reflexivity. contradiction.
Qed.

(** With a guard other than "immutable" and legal arguments, [set] on a
    list of string names returns and leaves the pairs under other
    names, in their order, followed by the pair of the name as given and
    the normalized value. *)
Theorem Headers_set_leaves_one_normalized_pair (hs : t) (name value : string) :
  kGuard hs <> immutable ->
  isValidHeaderName name = true ->
  isValidHeaderValue (headerValueNormalize value) = true ->
  names_are_strings hs ->
  set name value hs
    = (mk (HeadersList.mk
             (HeadersListSpec.remove_pairs (toLowerCase name)
                (HeadersList.backer (kHeadersList hs))
              ++ [Str name; Str (headerValueNormalize value)]))
          (kGuard hs),
       Ret tt).
Proof.
  intros Hg Hn Hv Hs. unfold set, Headers.set. cbv zeta.
  rewrite Hn, Hv. cbn [negb].
  rewrite (HeadersListSpec.set_is_remove_then_push _ name _ Hs).
  destruct hs as [l g]. cbn [kGuard] in *.
  destruct g; try reflexivity. contradiction.
Qed.

(** With a guard other than "immutable" and legal arguments, [append] on
    a list of whole pairs with string names returns, and [has] is true
    afterwards for the name in every casing that is itself a legal
    name. *)
Theorem Headers_append_then_has (hs : t) (name value name' : string) :
  kGuard hs <> immutable ->
  isValidHeaderName name = true ->
  isValidHeaderValue (headerValueNormalize value) = true ->
  isValidHeaderName name' = true ->
  toLowerCase name' = toLowerCase name ->
  HeadersListSpec.paired (HeadersList.backer (kHeadersList hs)) ->
  names_are_strings hs ->
  snd (append name value hs) = Ret tt /\
  Headers.has isValidHeaderName name' (fst (append name value hs)) = Ret true.
Proof.
  intros Hg Hn Hv Hn' Hcase Hp Hs.
  destruct (@HeadersListSpec.append_then_has (kHeadersList hs) name
              (headerValueNormalize value) name' Hp Hs Hcase) as [Ha Hh].
  unfold append, Headers.append, Headers.has. cbv zeta.
  rewrite Hn, Hv, Hn'. cbn [negb].
  destruct hs as [l g]. cbn [kGuard kHeadersList] in *.
  destruct g; try contradiction;
    unfold Headers.with_list; cbn [fst snd kHeadersList]; now split.
Qed.

End Open.

Definition open_headers : t := mk HeadersListSpec.two_types none.

Lemma append_and_set_ignore_surrounding_whitespace_witness :
  Headers.append sample_isValidHeaderName sample_isValidHeaderValue
    "Host" (" " ++ "example.org" ++ String "009" "") open_headers
  = Headers.append sample_isValidHeaderName sample_isValidHeaderValue
      "Host" "example.org" open_headers.
Proof.
  exact (proj1 (@append_and_set_ignore_surrounding_whitespace
                  sample_isValidHeaderName sample_isValidHeaderValue
                  open_headers "Host" " " "example.org" (String "009" "")
                  eq_refl eq_refl)).
Defined.

Lemma Headers_delete_removes_matching_pairs_witness :
  Headers.delete sample_isValidHeaderName "ACCEPT" open_headers
  = (mk (HeadersList.mk [Str "Host"; Str "h"]) none, Ret tt).
Proof.
  apply (@Headers_delete_removes_matching_pairs
           sample_isValidHeaderName open_headers "ACCEPT").
  - discriminate.
  - reflexivity.
  - reflexivity.
Defined.

Lemma Headers_set_leaves_one_normalized_pair_witness :
  Headers.set sample_isValidHeaderName sample_isValidHeaderValue
    "ACCEPT" " c " open_headers
  = (mk (HeadersList.mk [Str "Host"; Str "h"; Str "ACCEPT"; Str "c"]) none,
     Ret tt).
Proof.
  apply (@Headers_set_leaves_one_normalized_pair
           sample_isValidHeaderName sample_isValidHeaderValue
           open_headers "ACCEPT" " c ").
  - discriminate.
  - reflexivity.
  - reflexivity.
  - reflexivity.
Defined.

Lemma Headers_append_then_has_witness :
  snd (Headers.append sample_isValidHeaderName sample_isValidHeaderValue
         "HOST" " x " open_headers) = Ret tt /\
  Headers.has sample_isValidHeaderName "host"
    (fst (Headers.append sample_isValidHeaderName sample_isValidHeaderValue
            "HOST" " x " open_headers)) = Ret true.
Proof.
  apply (@Headers_append_then_has
           sample_isValidHeaderName sample_isValidHeaderValue
           open_headers "HOST" " x " "host"); try reflexivity.
  - discriminate.
  - exists [(Str "Accept", Str "a"); (Str "Host", Str "h");
            (Str "accept", Str "b")].
    reflexivity.
Defined.

(** *** [fill] and the constructor *)

Section Filling.

Variable isValidHeaderName : string -> bool.
Variable isValidHeaderValue : string -> bool.

Let append := Headers.append isValidHeaderName isValidHeaderValue.
Let fill := Headers.fill isValidHeaderName isValidHeaderValue.
Let constructor_init :=
  Headers.constructor_init isValidHeaderName isValidHeaderValue.

Definition as_sequence (entries : list (string * string))
  : list (list string) :=
  map (fun e => [fst e; snd e]) entries.

Lemma fill_entries_as_sequence (entries : list (string * string)) (hs : t) :
  fill hs (Entries entries) = fill hs (Sequence (as_sequence entries)).
Proof.
  unfold fill, Headers.fill. revert hs.
  induction entries as [|[key value] entries IH]; intros hs; [reflexivity|].
  cbn [Headers.fill_entries Headers.fill_sequence as_sequence map fst snd].
  destruct (Headers.append isValidHeaderName isValidHeaderValue key value hs)
    as [hs' [u| |]]; [apply IH | reflexivity | reflexivity].
Qed.

(** A record fills a Headers object as the sequence of its entries
    does, whatever the entries and the state of the object. *)
Theorem fill_record_as_sequence (entries : list (string * string)) (hs : t) :
  fill hs (Entries entries) = fill hs (Sequence (as_sequence entries)).
Proof. intros. apply fill_entries_as_sequence; assumption. Qed.

Definition legal (e : string * string) : Prop :=
  isValidHeaderName (fst e) = true /\
  isValidHeaderValue (headerValueNormalize (snd e)) = true.

(** The name of [e] is not yet in the list. *)
Definition fresh_in (hs : t) (e : string * string) : Prop :=
  HeadersListSpec.all_names (HeadersListSpec.differs (toLowerCase (fst e)))
    (HeadersList.backer (kHeadersList hs)) = true.

Definition stored (entries : list (string * string)) : list value :=
  flat_map (fun e => [Str (fst e); Str (headerValueNormalize (snd e))]) entries.

Lemma append_fresh_entry (hs : t) (e : string * string) :
  kGuard hs <> immutable ->
  names_are_strings hs ->
  legal e -> fresh_in hs e ->
  append (fst e) (snd e) hs
    = (mk (HeadersList.mk
             (HeadersList.backer (kHeadersList hs) ++ stored [e]))
          (kGuard hs),
       Ret tt).
Proof.
  intros Hg Hs [Hn Hv] Hf. unfold append, Headers.append. cbv zeta.
  rewrite Hn, Hv. cbn [negb].
  rewrite (@HeadersListSpec.append_fresh_name (kHeadersList hs) (fst e)
             (headerValueNormalize (snd e)))
    by (apply HeadersListSpec.contains_none; assumption).
  unfold stored. cbn [flat_map app].
  destruct hs as [l g]. cbn [kGuard] in *.
  destruct g; try reflexivity. contradiction.
Qed.

(** Entries with legal names and values, under names that differ from
    one another and from those of the list also when case is ignored,
    are appended in the order given, each with its name as given and its
    value normalized. *)
Lemma fill_appends_in_order (entries : list (string * string)) :
  forall hs,
    kGuard hs <> immutable ->
    HeadersListSpec.paired (HeadersList.backer (kHeadersList hs)) ->
    names_are_strings hs ->
    Forall legal entries ->
    Forall (fresh_in hs) entries ->
    NoDup (map (fun e => toLowerCase (fst e)) entries) ->
    fill hs (Entries entries)
      = (mk (HeadersList.mk
               (HeadersList.backer (kHeadersList hs) ++ stored entries))
            (kGuard hs),
         Ret tt).
Proof.
  unfold fill, Headers.fill.
  induction entries as [|e entries IH]; intros hs Hg Hp Hs Hl Hf Hd.
  - cbn [Headers.fill_entries stored flat_map]. rewrite app_nil_r.
    now destruct hs as [[a] g].
  - inversion Hl as [|? ? Hle Hl']; subst.
    inversion Hf as [|? ? Hfe Hf']; subst.
    cbn [map] in Hd. inversion Hd as [|? ? Hnotin Hd']; subst.
    destruct e as [key value].
    cbn [Headers.fill_entries].
    pose proof (@append_fresh_entry hs (key, value) Hg Hs Hle Hfe) as Ha.
    unfold append in Ha. cbn [fst snd] in Ha. rewrite Ha.
    assert (Heven : exists k, List.length (HeadersList.backer (kHeadersList hs))
                              = (2 * k)%nat)
      by (now apply HeadersListSpec.paired_even_length).
    rewrite IH; clear IH.
    + cbn [kHeadersList kGuard HeadersList.backer].
      unfold stored. cbn [flat_map app fst snd].
      now rewrite <- app_assoc.
    + exact Hg.
    + cbn [kHeadersList HeadersList.backer].
      apply HeadersListSpec.paired_even_length.
      destruct Heven as [k Hk]. exists (k + 1)%nat.
      rewrite length_app, Hk. unfold stored. simpl. lia.
    + unfold names_are_strings in *. cbn [kHeadersList HeadersList.backer].
      rewrite HeadersListSpec.all_names_app by exact Heven.
      rewrite Hs. reflexivity.
    + exact Hl'.
    + apply Forall_forall. intros e' Hin.
      pose proof (proj1 (Forall_forall _ _) Hf' e' Hin) as Hfresh.
      unfold fresh_in in *. cbn [kHeadersList HeadersList.backer].
      rewrite HeadersListSpec.all_names_app by exact Heven.
      rewrite Hfresh. unfold stored.
      cbn [flat_map app fst snd HeadersListSpec.all_names
           HeadersListSpec.differs andb].
      rewrite andb_true_r. apply negb_true_iff, String.eqb_neq.
      intros Heq. apply Hnotin. cbn [fst]. rewrite Heq.
      now apply (in_map (fun e => toLowerCase (fst e))).
    + exact Hd'.
Qed.

(** [new Headers(init)], for a record or a sequence of pairs with legal
    names and values under names that differ also when case is ignored:
    the object has guard "none" and holds the entries in the order
    given, names as given, values normalized. *)
Theorem constructor_stores_entries_in_order (entries : list (string * string)) :
  Forall legal entries ->
  NoDup (map (fun e => toLowerCase (fst e)) entries) ->
  constructor_init (Some (Entries entries))
    = Ret (mk (HeadersList.mk (stored entries)) none) /\
  constructor_init (Some (Sequence (as_sequence entries)))
    = Ret (mk (HeadersList.mk (stored entries)) none).
Proof.
  intros Hl Hd.
  assert (H : fill Headers.constructor (Entries entries)
              = (mk (HeadersList.mk (stored entries)) none, Ret tt)).
  { rewrite fill_appends_in_order; try assumption.
    - reflexivity.
    - discriminate.
    - exists []. reflexivity.
    - reflexivity.
    - apply Forall_forall. intros e _. reflexivity. }
  unfold constructor_init, Headers.constructor_init. fold fill.
  split.
  - now rewrite H.
  - now rewrite <- fill_entries_as_sequence, H.
Qed.

End Filling.

Lemma constructor_stores_entries_in_order_witness :
  Headers.constructor_init sample_isValidHeaderName sample_isValidHeaderValue
    (Some (Entries [("Accept", " text/html "); ("Host", "example.org")]%string))
  = Ret (mk (HeadersList.mk [Str "Accept"; Str "text/html";
                             Str "Host"; Str "example.org"]) none).
Proof.
  apply (@constructor_stores_entries_in_order
           sample_isValidHeaderName sample_isValidHeaderValue
           [("Accept", " text/html "); ("Host", "example.org")]%string).
  - repeat constructor.
  - repeat constructor; simpl; intuition discriminate.
Defined.

End HeadersSpec.

(** ** Buffers *)

Module BufferSpec.
Import Buffer.

(** A search that finds something answers with a position of the
    buffer, not before the position it started from. *)
Lemma indexOf_scan_bound needle b :
  forall i, 0 <= i ->
    indexOf_scan needle b i = -1 \/
    i <= indexOf_scan needle b i <= i + byteLength b.
Proof.
  unfold byteLength.
  induction b as [|x b IH]; intros i Hi; simpl.
  - destruct (starts_with needle []); [right; simpl; lia | now left].
  - destruct (starts_with needle (x :: b)).
    + right. simpl List.length. lia.
    + destruct (IH (i + 1)) as [H | H]; [lia | now left |].
      right. simpl List.length. lia.
Qed.

(** ... and the needle sits at the position found. *)
Lemma indexOf_scan_found needle b :
  forall i, 0 <= i ->
    indexOf_scan needle b i <> -1 ->
    starts_with needle
      (skipn (Z.to_nat (indexOf_scan needle b i - i)) b) = true.
Proof.
  induction b as [|x b IH]; intros i Hi; simpl.
  - destruct (starts_with needle []) eqn:E; [|congruence].
    intros _. replace (i - i) with 0 by lia. exact E.
  - destruct (starts_with needle (x :: b)) eqn:E.
    + intros _. replace (i - i) with 0 by lia. exact E.
    + intros Hne.
      pose proof (@indexOf_scan_bound needle b (i + 1)) as Hb.
      destruct Hb as [Hb | Hb]; [lia | congruence |].
      specialize (IH (i + 1) ltac:(lia) Hne).
      replace (Z.to_nat (indexOf_scan needle b (i + 1) - i))
        with (S (Z.to_nat (indexOf_scan needle b (i + 1) - (i + 1)))) by lia.
      exact IH.
Qed.

Lemma indexOf_bound b needle :
  indexOf b needle 0 = -1 \/ 0 <= indexOf b needle 0 <= byteLength b.
Proof.
  unfold indexOf.
  assert (H : Z.min 0 (byteLength b) = 0) by (unfold byteLength; lia).
  rewrite H. simpl skipn.
  destruct (@indexOf_scan_bound needle b 0) as [E | E]; [lia | now left |].
  right. lia.
Qed.

Lemma indexOf_found b needle :
  indexOf b needle 0 <> -1 ->
  starts_with needle (skipn (Z.to_nat (indexOf b needle 0)) b) = true.
Proof.
  unfold indexOf.
  assert (H : Z.min 0 (byteLength b) = 0) by (unfold byteLength; lia).
  rewrite H. simpl skipn. intros Hne.
  pose proof (@indexOf_scan_found needle b 0 ltac:(lia) Hne) as Hf.
  now rewrite Z.sub_0_r in Hf.
Qed.

Lemma subarray_prefix b e :
  0 <= e <= byteLength b -> subarray b 0 e = firstn (Z.to_nat e) b.
Proof.
  intros He. unfold subarray, clamp.
  destruct (Z.ltb_spec 0 0); [lia|].
  destruct (Z.ltb_spec e 0); [lia|].
  rewrite !Z.min_l by lia.
  replace (Z.to_nat 0) with 0%nat by reflexivity. simpl skipn.
  now rewrite Z.sub_0_r.
Qed.

Lemma subarray_from_suffix b s :
  0 <= s <= byteLength b -> subarray_from b s = skipn (Z.to_nat s) b.
Proof.
  intros Hs. unfold subarray_from, subarray, clamp.
  destruct (Z.ltb_spec s 0); [lia|].
  destruct (Z.ltb_spec (byteLength b) 0); [unfold byteLength in *; lia|].
  rewrite !Z.min_l by lia.
  apply firstn_all2. rewrite length_skipn. unfold byteLength in *. lia.
Qed.

Lemma CRLF_bytes : CRLF = [x0d; x0a].
Proof. reflexivity. Qed.

(** No chunk of fewer than two bytes contains a CRLF. *)
Lemma no_CRLF_in_short_chunk (chunk : t) (off : Z) :
  (List.length chunk <= 1)%nat ->
  indexOf chunk CRLF off = -1.
Proof.
  intros Hlen. unfold indexOf. rewrite CRLF_bytes.
  generalize (Z.min off (byteLength chunk)) as i. intros i.
  generalize (Z.to_nat i) as n. intros n.
  destruct chunk as [|x [|y chunk]]; simpl in Hlen; try lia.
  - rewrite skipn_nil. reflexivity.
  - destruct n as [|n]; simpl.
    + rewrite andb_false_r. reflexivity.
    + rewrite skipn_nil. reflexivity.
Qed.

(** *** Where the first CRLF of a chunk is *)

Lemma indexOf_from_start b v : indexOf b v 0 = indexOf_scan v b 0.
Proof.
  unfold indexOf.
  assert (H : Z.min 0 (byteLength b) = 0) by (unfold byteLength; lia).
  now rewrite H.
Qed.

(** Whether a scan finds something does not depend on the position it
    counts from. *)
Lemma indexOf_scan_shift v b :
  forall i j, 0 <= i -> 0 <= j ->
    indexOf_scan v b i = -1 -> indexOf_scan v b j = -1.
Proof.
  induction b as [|x b IH]; intros i j Hi Hj; simpl.
  - destruct (starts_with v []); [lia | reflexivity].
  - destruct (starts_with v (x :: b)); [lia|].
    apply IH; lia.
Qed.

Lemma includes_false_scan b v i :
  includes b v = false -> 0 <= i -> indexOf_scan v b i = -1.
Proof.
  unfold includes. rewrite indexOf_from_start. intros H Hi.
  apply negb_false_iff, Z.eqb_eq in H.
  now apply (@indexOf_scan_shift v b 0 i).
Qed.

(** A line without CRLF, then CRLF: the scan stops right after the
    line. *)
Lemma indexOf_scan_line line rest :
  forall i, 0 <= i ->
    indexOf_scan CRLF line i = -1 ->
    indexOf_scan CRLF (line ++ CRLF ++ rest) i = i + byteLength line.
Proof.
  rewrite CRLF_bytes. unfold byteLength.
  induction line as [|x line IH]; intros i Hi H.
  - simpl. lia.
  - cbn [indexOf_scan] in H.
    destruct (starts_with [x0d; x0a] (x :: line)) eqn:E; [lia|].
    cbn [app indexOf_scan].
    match goal with
    | |- context [starts_with ?v ?l] =>
        assert (E' : starts_with v l = false)
    end.
    { destruct line as [|y line]; cbn [starts_with app] in *.
      - rewrite andb_false_r. reflexivity.
      - exact E. }
    rewrite E'.
    change (x0d :: x0a :: rest) with ([x0d; x0a] ++ rest).
    rewrite IH by (assumption || lia).
    cbn [List.length]. lia.
Qed.

(** The chunk [lead ++ line ++ CRLF ++ rest], searched from behind
    [lead]: the CRLF found is the one after [line], and the chunk is cut
    into [lead ++ line] and [rest]. *)
Lemma first_CRLF_after_line lead line rest :
  includes line CRLF = false ->
  let chunk := lead ++ line ++ CRLF ++ rest in
  let crlf := indexOf chunk CRLF (byteLength lead) in
  crlf = byteLength lead + byteLength line /\
  slice chunk 0 crlf = lead ++ line /\
  slice_from chunk (crlf + 2) = rest.
Proof.
  intros Hline chunk crlf.
  assert (Hcrlf : crlf = byteLength lead + byteLength line).
  { unfold crlf, indexOf, chunk.
    assert (Hmin : Z.min (byteLength lead)
                     (byteLength (lead ++ line ++ CRLF ++ rest))
                   = byteLength lead).
    { unfold byteLength. rewrite length_app. lia. }
    rewrite Hmin. unfold byteLength at 1. rewrite Nat2Z.id.
    rewrite skipn_app, skipn_all, Nat.sub_diag. cbn [skipn app].
    apply indexOf_scan_line; [unfold byteLength; lia|].
    apply includes_false_scan; [exact Hline | unfold byteLength; lia]. }
  split; [exact Hcrlf|].
  assert (Hlen : byteLength chunk
                 = byteLength lead + byteLength line + 2 + byteLength rest).
  { unfold chunk, byteLength. rewrite !length_app.
    rewrite CRLF_bytes. cbn [List.length]. lia. }
  assert (Hnn : 0 <= byteLength lead /\ 0 <= byteLength line /\
                0 <= byteLength rest) by (unfold byteLength; lia).
  split.
  - unfold slice. rewrite subarray_prefix by lia.
    rewrite Hcrlf. unfold chunk, byteLength.
    replace (Z.to_nat (Z.of_nat (List.length lead) + Z.of_nat (List.length line)))
      with (List.length (lead ++ line)) by (rewrite length_app; lia).
    rewrite app_assoc. rewrite firstn_app, firstn_all, Nat.sub_diag.
    cbn [firstn]. now rewrite app_nil_r.
  - unfold slice_from. rewrite subarray_from_suffix by lia.
    rewrite Hcrlf.
    unfold chunk, byteLength.
    replace (Z.to_nat (Z.of_nat (List.length lead) + Z.of_nat (List.length line) + 2))
      with (List.length ((lead ++ line) ++ CRLF))
      by (rewrite !length_app, CRLF_bytes; cbn [List.length]; lia).
    replace (lead ++ line ++ CRLF ++ rest) with (((lead ++ line) ++ CRLF) ++ rest)
      by (now rewrite <- !app_assoc).
    rewrite skipn_app, skipn_all, Nat.sub_diag. reflexivity.
Qed.

(** [b.subarray(start)] drops the first [start] bytes. *)
Lemma subarray_from_skipn b s :
  0 <= s -> subarray_from b s = skipn (Z.to_nat s) b.
Proof.
  intros Hs. destruct (Z.le_gt_cases s (byteLength b)) as [H | H].
  - now apply subarray_from_suffix.
  - rewrite skipn_all2 by (unfold byteLength in H; lia).
    unfold subarray_from, subarray, clamp.
    destruct (Z.ltb_spec s 0); [lia|].
    destruct (Z.ltb_spec (byteLength b) 0); [unfold byteLength in *; lia|].
    rewrite (Z.min_r s) by lia. rewrite Z.min_id.
    now rewrite Z.sub_diag.
Qed.

(** A buffer without the needle has it neither in a part at its start
    nor in the rest. *)
Lemma starts_with_app v a b :
  starts_with v a = true -> starts_with v (a ++ b) = true.
Proof.
  revert a. induction v as [|x v IH]; intros a; [reflexivity|].
  destruct a as [|y a]; cbn [starts_with app]; [discriminate|].
  intros H. apply andb_prop in H. destruct H as [-> H]. now apply IH.
Qed.

Lemma includes_app_false v a b :
  includes (a ++ b) v = false ->
  includes a v = false /\ includes b v = false.
Proof.
  unfold includes. rewrite !indexOf_from_start. intros H.
  apply negb_false_iff, Z.eqb_eq in H.
  assert (Hgen : forall i, 0 <= i ->
            indexOf_scan v (a ++ b) i = -1 ->
            indexOf_scan v a i = -1 /\ indexOf_scan v b 0 = -1).
  { clear H. induction a as [|x a IH]; intros i Hi H.
    - cbn [app] in H. split.
      + cbn [indexOf_scan].
        destruct (starts_with v []) eqn:E; [|reflexivity].
        exfalso. apply (@starts_with_app v [] b) in E. cbn [app] in E.
        destruct b as [|y b]; cbn [indexOf_scan] in H; rewrite E in H; lia.
      + now apply (@indexOf_scan_shift v b i 0).
    - cbn [app indexOf_scan] in H.
      destruct (starts_with v (x :: a ++ b)) eqn:E; [lia|].
      destruct (IH (i + 1) ltac:(lia) H) as [Ha Hb].
      split; [|exact Hb]. cbn [indexOf_scan].
      destruct (starts_with v (x :: a)) eqn:E'; [|exact Ha].
      apply (@starts_with_app v (x :: a) b) in E'. cbn [app] in E'. congruence. }
  destruct (Hgen 0 ltac:(lia) H) as [Ha Hb].
  rewrite Ha, Hb. split; reflexivity.
Qed.

End BufferSpec.

(** ** The multipart parser *)

Module FormDataParserSpec.
Import JS FormDataParser.

(** *** [write] on chunks that carry no line end *)

Definition is_Body (s : ParserState.t) : bool :=
  match s with ParserState.Body => true | _ => false end.

(** In the line-oriented states a chunk of at most one byte is queued
    and nothing else happens: the search for CRLF looks at the chunk
    alone. *)
Lemma write_short_chunk_is_queued fuel chunk r :
  is_Body (state (self r)) = false ->
  (List.length chunk <= 1)%nat ->
  write (S fuel) chunk r
    = (Run (push_currentChunk chunk (self r)) (emitted r), Ret tt).
Proof.
  intros Hs Hlen. destruct r as [[m st cur nxt bd lb] log].
  cbn [write self state emitted].
  destruct st; try discriminate;
    rewrite (BufferSpec.no_CRLF_in_short_chunk _ _ Hlen); reflexivity.
Qed.

Definition bytewise (input : Buffer.t) : list Buffer.t :=
  map (fun b => [b]) input.

(** So a parser that is fed one byte per [write] from a line-oriented
    state queues every byte, emits nothing and never changes state,
    whatever the input. *)
Lemma feed_bytewise_only_queues fuel input :
  forall r,
    is_Body (state (self r)) = false ->
    feed (S fuel) (bytewise input) r
      = (Run (with_currentChunk
                (currentChunk (self r) ++ bytewise input) (self r))
             (emitted r),
         Ret tt).
Proof.
  unfold feed.
  induction input as [|b input IH]; intros r Hs.
  - destruct r as [[m st cur nxt bd lb] log]. simpl.
    unfold with_currentChunk. simpl. rewrite app_nil_r. reflexivity.
  - cbn [bytewise map for_each].
    rewrite write_short_chunk_is_queued by (auto; simpl; lia).
    fold (bytewise input). rewrite IH.
    + destruct r as [[m st cur nxt bd lb] log].
      unfold push_currentChunk, with_currentChunk. simpl.
      rewrite <- app_assoc. reflexivity.
    + destruct r as [[m st cur nxt bd lb] log]. exact Hs.
Qed.

(** In the state Body, with no rolling tail yet, a chunk without CRLF is
    queued, and then [this.#lastBytes.indexOf] is called on
    [undefined]. *)
Lemma write_Body_without_tail_throws fuel chunk r :
  state (self r) = ParserState.Body ->
  lastBytes (self r) = None ->
  Buffer.includes chunk CRLF = false ->
  write (S fuel) chunk r
    = (Run (push_currentChunk chunk (self r)) (emitted r),
       Throw (undefined_has_no "indexOf")).
Proof.
  intros Hs Hl Hc. destruct r as [[m st cur nxt bd lb] log].
  cbn [self state lastBytes] in Hs, Hl. subst st lb.
  cbn [write self state emitted lastBytes]. rewrite Hc. reflexivity.
Qed.

(** *** The step that ends a body *)

(** The rolling tail once [write] has taken [chunk] in; [None] when
    there is still none. *)
Definition rolling_tail (p : t) (chunk : Buffer.t) : option Buffer.t :=
  match lastBytes p with
  | None => if Buffer.includes chunk CRLF then Some chunk else None
  | Some last => Some (Buffer.concat [last; chunk])
  end.

(** The parser after a body has been handed over: state Boundary, both
    queues and the tail empty. *)
Definition after_body (p : t) : t :=
  mk (mimeType p) ParserState.Boundary [] [] (boundary p) None.

Lemma for_each_one (w : Buffer.t -> M unit) c r :
  for_each w [c] r = w c r.
Proof.
  simpl. destruct (w c r) as [r' [[]| |]]; reflexivity.
Qed.

(** The step, for queues in any state. *)
Lemma write_Body_at_boundary fuel chunk r last :
  state (self r) = ParserState.Body ->
  rolling_tail (self r) chunk = Some last ->
  2 <= Buffer.indexOf last (boundary (self r)) 0 ->
  let cut := Z.to_nat (Buffer.indexOf last (boundary (self r)) 0 - 2) in
  write (S fuel) chunk r
    = for_each (write fuel) (nextChunk (self r) ++ [skipn cut last])
        (Run (after_body (self r))
             (emitted r ++
              [Emit "body"
                 (combineChunks (currentChunk (self r) ++ [firstn cut last]))])).
Proof.
  intros Hs Ht Hi cut. destruct r as [[m st cur nxt bd lb] log].
  cbn [self state lastBytes boundary nextChunk currentChunk emitted] in *.
  subst st.
  pose proof (BufferSpec.indexOf_bound last bd) as Hb.
  destruct Hb as [Hb | Hb]; [lia|].
  assert (Hpre : Buffer.subarray last 0 (Buffer.indexOf last bd 0 - 2)
                 = firstn cut last)
    by (apply BufferSpec.subarray_prefix; lia).
  assert (Hlen : Buffer.byteLength (firstn cut last)
                 = Buffer.indexOf last bd 0 - 2).
  { unfold Buffer.byteLength in *. rewrite length_firstn. unfold cut. lia. }
  assert (Hsuf : Buffer.subarray_from last (Buffer.byteLength (firstn cut last))
                 = skipn cut last).
  { rewrite Hlen. apply BufferSpec.subarray_from_suffix. lia. }
  assert (Hne : (Buffer.indexOf last bd 0 =? -1) = false)
    by (apply Z.eqb_neq; lia).
  assert (Htwo : Buffer.byteLength CRLF = 2) by reflexivity.
  unfold rolling_tail in Ht. cbn [lastBytes] in Ht.
  cbn [write self state emitted lastBytes].
  destruct lb as [l|].
  - assert (Hl : Buffer.concat [l; chunk] = last) by congruence.
    cbn [with_lastBytes lastBytes boundary]. rewrite Hl.
    rewrite Hne, andb_false_r. cbn [negb]. rewrite Htwo, Hpre, Hsuf.
    reflexivity.
  - destruct (Buffer.includes chunk CRLF); [|discriminate].
    assert (Hl : chunk = last) by congruence. subst chunk.
    cbn [negb with_lastBytes lastBytes boundary].
    rewrite Hne, andb_false_r. cbn [negb]. rewrite Htwo, Hpre, Hsuf.
    reflexivity.
Qed.

(** The marker stands two bytes into the remainder of that step. *)
Lemma marker_two_bytes_into_remainder last marker :
  2 <= Buffer.indexOf last marker 0 ->
  Buffer.starts_with marker
    (skipn 2 (skipn (Z.to_nat (Buffer.indexOf last marker 0 - 2)) last)) = true.
Proof.
  intros Hi. rewrite skipn_skipn.
  replace (2 + Z.to_nat (Buffer.indexOf last marker 0 - 2))%nat
    with (Z.to_nat (Buffer.indexOf last marker 0)) by lia.
  apply BufferSpec.indexOf_found. lia.
Qed.

(** *** Fuel *)

Definition tail_length (p : t) : Z :=
  match lastBytes p with
  | Some last => Buffer.byteLength last
  | None => 0
  end.

Definition body_bit (s : ParserState.t) : Z :=
  if is_Body s then 1 else 0.

(** Nesting depth that [write] cannot exceed. *)
Definition enough_fuel (chunk : Buffer.t) (r : run) : nat :=
  Z.to_nat (2 * (Buffer.byteLength chunk + tail_length (self r))
            + body_bit (state (self r)) + 1).

Lemma for_each_nil (w : Buffer.t -> M unit) r : for_each w [] r = (r, Ret tt).
Proof. reflexivity. Qed.

Lemma parse_with_Body w chunks r :
  state (self r) = ParserState.Body ->
  parse_with w chunks r
    = for_each w (nextChunk (self r))
        (Run (with_state ParserState.Boundary
                (with_nextChunk [] (with_currentChunk [] (self r))))
             (emitted r ++ [Emit "body" (combineChunks chunks)])).
Proof.
  intros Hs. unfold parse_with. rewrite Hs. reflexivity.
Qed.

Lemma parse_with_line w chunks r :
  is_Body (state (self r)) = false ->
  parse_with w chunks r = (r, Throw AssertionError) \/
  exists s log,
    parse_with w chunks r
      = for_each w (nextChunk (self r))
          (Run (with_state s (with_nextChunk [] (with_currentChunk [] (self r))))
               log).
Proof.
  intros Hs. unfold parse_with.
  destruct (state (self r)) eqn:E; try discriminate.
  - destruct (Buffer.indexOf (combineChunks chunks) (boundary (self r)) 0 =? -1);
      [now left | right; eexists; eexists; reflexivity].
  - destruct (negb (Buffer.byteLength (combineChunks chunks) =? 0));
      right; eexists; eexists; reflexivity.
  - destruct (Buffer.indexOf (combineChunks chunks) (boundary (self r)) 0 =? -1);
      [now left | right; eexists; eexists; reflexivity].
Qed.

Lemma write_line_unfold fuel chunk r :
  is_Body (state (self r)) = false ->
  write (S fuel) chunk r
    = let p := self r in
      let crlf :=
        Buffer.indexOf chunk CRLF
          (if ParserState.is_Boundary (state p) then 2 else 0) in
      if crlf =? -1
      then (Run (push_currentChunk chunk p) (emitted r), Ret tt)
      else
        let rest := Buffer.slice_from chunk (crlf + 2) in
        let p := push_currentChunk (Buffer.slice chunk 0 crlf) p in
        let p := if negb (Buffer.byteLength rest =? 0)
                 then push_nextChunk rest p else p in
        parse_with (write fuel) (currentChunk p) (Run p (emitted r)).
Proof.
  intros Hs. destruct r as [[m st cur nxt bd lb] log].
  destruct st; try discriminate; reflexivity.
Qed.

Lemma byteLength_nonneg (b : Buffer.t) : 0 <= Buffer.byteLength b.
Proof. unfold Buffer.byteLength. lia. Qed.

Lemma byteLength_subarray_le b s e :
  Buffer.byteLength (Buffer.subarray b s e) <= Buffer.byteLength b.
Proof.
  unfold Buffer.subarray, Buffer.byteLength.
  rewrite length_firstn, length_skipn. lia.
Qed.

Lemma rest_is_shorter chunk j :
  0 <= j ->
  Buffer.byteLength (Buffer.slice_from chunk (j + 2)) <> 0 ->
  Buffer.byteLength (Buffer.slice_from chunk (j + 2))
    <= Buffer.byteLength chunk - 2.
Proof.
  unfold Buffer.slice_from, Buffer.subarray_from, Buffer.subarray,
    Buffer.clamp, Buffer.byteLength.
  intros Hj. rewrite length_firstn, length_skipn.
  destruct (Z.ltb_spec (j + 2) 0); [lia|].
  destruct (Z.ltb_spec (Z.of_nat (List.length chunk)) 0); lia.
Qed.

Lemma indexOf_nonneg b needle off :
  0 <= off ->
  Buffer.indexOf b needle off = -1 \/ 0 <= Buffer.indexOf b needle off.
Proof.
  intros Hoff. unfold Buffer.indexOf.
  pose proof (byteLength_nonneg b).
  destruct (@BufferSpec.indexOf_scan_bound needle
              (skipn (Z.to_nat (Z.min off (Buffer.byteLength b))) b)
              (Z.min off (Buffer.byteLength b)) ltac:(lia)) as [E | E];
    [now left | right; lia].
Qed.

Lemma write_Body_unfold fuel chunk r :
  state (self r) = ParserState.Body ->
  write (S fuel) chunk r
    = match rolling_tail (self r) chunk with
      | None => (Run (push_currentChunk chunk (self r)) (emitted r),
                 Throw (undefined_has_no "indexOf"))
      | Some last =>
          let p := with_lastBytes (Some last) (self r) in
          let boundaryIndex := Buffer.indexOf last (boundary p) 0 in
          if (Buffer.byteLength last <? 1024) && (boundaryIndex =? -1)
          then (Run p (emitted r), Ret tt)
          else if negb (boundaryIndex =? -1)
          then
            let toBoundary := Buffer.subarray last 0 (boundaryIndex - 2) in
            let p := with_lastBytes None
                       (push_nextChunk
                          (Buffer.subarray_from last
                             (Buffer.byteLength toBoundary))
                          (push_currentChunk toBoundary p)) in
            parse_with (write fuel) (currentChunk p) (Run p (emitted r))
          else (Run p (emitted r), Ret tt)
      end.
Proof.
  intros Hs. destruct r as [[m st cur nxt bd lb] log].
  cbn [self state] in Hs. subst st. unfold rolling_tail.
  cbn [write self state lastBytes emitted].
  destruct lb as [l|]; [reflexivity|].
  destruct (Buffer.includes chunk CRLF); reflexivity.
Qed.

Lemma rolling_tail_length p chunk last :
  rolling_tail p chunk = Some last ->
  Buffer.byteLength last = Buffer.byteLength chunk + tail_length p.
Proof.
  unfold rolling_tail, tail_length.
  destruct (lastBytes p) as [l|].
  - intros H. inversion H. unfold Buffer.byteLength, Buffer.concat.
    cbn [List.concat]. rewrite !length_app. cbn [List.length]. lia.
  - destruct (Buffer.includes chunk CRLF); [|discriminate].
    intros H. inversion H. lia.
Qed.

(** A call ends well when it does not run out of fuel and, if it
    returns, leaves [#nextChunk] empty. *)
Definition ends_well (x : run * outcome unit) : Prop :=
  snd x <> OutOfFuel /\
  (snd x = Ret tt -> nextChunk (self (fst x)) = []).

Lemma write_ends_well (fuel : nat) :
  forall chunk r,
    nextChunk (self r) = [] ->
    2 * (Buffer.byteLength chunk + tail_length (self r))
      + body_bit (state (self r)) < Z.of_nat fuel ->
    ends_well (write fuel chunk r).
Proof.
  induction fuel as [|fuel IH]; intros chunk r Hn Hf.
  - exfalso. pose proof (byteLength_nonneg chunk).
    assert (0 <= tail_length (self r)).
    { unfold tail_length. destruct (lastBytes (self r));
        [apply byteLength_nonneg | lia]. }
    assert (0 <= body_bit (state (self r))).
    { unfold body_bit. destruct (is_Body _); lia. }
    lia.
  - destruct (is_Body (state (self r))) eqn:Est.
    + assert (Hs : state (self r) = ParserState.Body)
        by (destruct (state (self r)); try discriminate; reflexivity).
      rewrite write_Body_unfold by exact Hs.
      destruct (rolling_tail (self r) chunk) as [last|] eqn:Et;
        [|split; [discriminate | intros H; discriminate H]].
      pose proof (rolling_tail_length _ _ Et) as Hlast.
      cbv zeta.
      destruct r as [[m st cur nxt bd lb] log].
      cbn [self state nextChunk lastBytes boundary emitted with_lastBytes] in *.
      subst st nxt.
      destruct ((Buffer.byteLength last <? 1024) &&
                (Buffer.indexOf last bd 0 =? -1));
        [split; [discriminate | reflexivity]|].
      destruct (negb (Buffer.indexOf last bd 0 =? -1));
        [|split; [discriminate | reflexivity]].
      rewrite parse_with_Body by reflexivity.
      cbn [self nextChunk push_nextChunk push_currentChunk with_lastBytes
           with_nextChunk with_currentChunk with_state app emitted
           mimeType state currentChunk boundary lastBytes].
      rewrite for_each_one. apply IH; [reflexivity|].
      match goal with
      | |- context [tail_length ?p] => change (tail_length p) with 0
      end.
      match goal with
      | |- context [body_bit ?s] => change (body_bit s) with 0
      end.
      pose proof (byteLength_subarray_le last
                    (Buffer.byteLength
                       (Buffer.subarray last 0 (Buffer.indexOf last bd 0 - 2)))
                    (Buffer.byteLength last)) as Hrem.
      fold (Buffer.subarray_from last
              (Buffer.byteLength
                 (Buffer.subarray last 0 (Buffer.indexOf last bd 0 - 2))))
        in Hrem.
      unfold body_bit in Hf. cbn [is_Body] in Hf. lia.
    + rewrite write_line_unfold by exact Est. cbv zeta.
      destruct (Buffer.indexOf chunk CRLF
                  (if ParserState.is_Boundary (state (self r)) then 2 else 0)
                =? -1) eqn:Ecrlf.
      * destruct r as [[m st cur nxt bd lb] log]. cbn in *.
        split; [discriminate | intros _; exact Hn].
      * set (crlf := Buffer.indexOf chunk CRLF
                  (if ParserState.is_Boundary (state (self r)) then 2 else 0)) in *.
        assert (Hcrlf : 0 <= crlf).
        { destruct (@indexOf_nonneg chunk CRLF
                     (if ParserState.is_Boundary (state (self r)) then 2 else 0))
            as [E | E].
          - destruct (ParserState.is_Boundary _); lia.
          - fold crlf in E. rewrite E in Ecrlf. discriminate.
          - exact E. }
        pose proof (@rest_is_shorter chunk crlf Hcrlf) as Hrest.
        set (rest := Buffer.slice_from chunk (crlf + 2)) in *.
        clearbody crlf rest.
        destruct r as [[m st cur nxt bd lb] log].
        cbn [self state nextChunk lastBytes emitted] in *. subst nxt.
        match goal with
        | |- ends_well (parse_with ?w ?c ?x) =>
            destruct (@parse_with_line w c x) as [E | [s [log' E]]]
        end.
        { destruct (negb (Buffer.byteLength rest =? 0)); exact Est. }
        { rewrite E. split; [discriminate | intros H; discriminate H]. }
        rewrite E. clear E.
        destruct (Z.eqb_spec (Buffer.byteLength rest) 0) as [E0 | E0];
          cbn [negb self nextChunk push_nextChunk push_currentChunk
               with_nextChunk with_currentChunk with_state app].
        { rewrite for_each_nil. split; [discriminate | reflexivity]. }
        rewrite for_each_one. apply IH; [reflexivity|].
        match goal with
        | |- context [tail_length ?p] =>
            change (tail_length p)
              with (tail_length (mk m st cur [] bd lb))
        end.
        match goal with
        | |- context [body_bit ?x] => change (body_bit x) with (body_bit s)
        end.
        specialize (Hrest E0).
        assert (body_bit s <= 1) by (unfold body_bit; destruct (is_Body s); lia).
        unfold body_bit in Hf. rewrite Est in Hf. lia.
Qed.

(** [write] returns or throws whenever [#nextChunk] is empty at the call,
    as it is in a fresh parser and after every [write] that returned. *)
Theorem write_total chunk r :
  nextChunk (self r) = [] ->
  snd (write (enough_fuel chunk r) chunk r) <> OutOfFuel.
Proof.
  intros Hn. apply write_ends_well; [exact Hn|].
  unfold enough_fuel. lia.
Qed.

(** *** Sample input *)

Definition crlf : string := String "013" (String "010" EmptyString).
Definition quote : string := String "034" EmptyString.

Definition bytes (s : string) : Buffer.t := list_byte_of_string s.

(** The header section and the rest of the encoding of one field. *)
Definition disposition : string :=
  "Content-Disposition: form-data; name=" ++ quote ++ "a" ++ quote.
Definition head : string := "--X" ++ crlf ++ disposition ++ crlf ++ crlf.
Definition tail : string := "hello" ++ crlf ++ "--X--".
Definition single_field : string := head ++ tail.

Definition multipart_X : MIMEType :=
  mkMIME "multipart" "form-data" [("boundary", "X")]%string.

(** The parser [new FormDataParser('multipart/form-data; boundary=X')]
    builds (see C8). *)
Definition fresh : t :=
  mk multipart_X ParserState.Beginning [] [] (bytes "--X") None.

(** The same parser once the header section has been written to it. *)
Definition in_body : t :=
  mk multipart_X ParserState.Body [] [] (bytes "--X") None.

Definition split_at_byte (n : nat) (input : Buffer.t) : list Buffer.t :=
  [firstn n input; skipn n input].

Definition three_events : list event :=
  [Emit "boundary" (bytes "X");
   Emit "header" (bytes disposition);
   Emit "body" (bytes "hello")].

(** *** The claims *)

(** C1 (refuted on the code).  The claim: the encoding of one field
    gives the events boundary, header, body("hello") when written one
    byte per call, and the same events when written in two chunks cut
    anywhere.  Written whole, it does give these three events.  Written
    one byte per call, it gives none: [write] looks for CRLF in the
    chunk it was handed, never across chunks, so every byte is queued
    and the state stays Beginning.  Cut between CR and LF of the first
    line, the boundary event carries the header line as well and no
    header event follows; cut inside "hello", the second [write] is
    never reached, because the first one throws (see C6). *)
Theorem C1_events_depend_on_chunking :
  let start := Run fresh [] in
  let input := bytes single_field in
  emitted (fst (feed 100 [input] start)) = three_events /\
  feed 100 (bytewise input) start
    = (Run (with_currentChunk (bytewise input) fresh) [], Ret tt) /\
  emitted (fst (feed 100 (split_at_byte 4 input) start))
    = [Emit "boundary" (bytes ("X" ++ crlf ++ disposition));
       Emit "body" (bytes "hello")] /\
  snd (feed 100 (split_at_byte 52 input) start)
    = Throw (undefined_has_no "indexOf").
Proof.
  cbv zeta. split; [vm_compute; reflexivity|].
  split; [|split; vm_compute; reflexivity].
  exact (@feed_bytewise_only_queues 99 (bytes single_field)
           (Run fresh []) eq_refl).
Qed.

(** C6 (refuted on the code).  The claim: in the state Body, a chunk
    without CRLF written while there is no rolling tail is queued and
    the call returns.  The code queues the chunk and then calls
    [indexOf] on the tail, which is still [undefined]: the call
    throws. *)
Theorem C6_body_chunk_without_CRLF_throws :
  let r := fst (write 100 (bytes head) (Run fresh [])) in
  self r = in_body /\
  Buffer.includes (bytes "hello") CRLF = false /\
  write 100 (bytes "hello") r
    = (Run (with_currentChunk [bytes "hello"] in_body)
           [Emit "boundary" (bytes "X"); Emit "header" (bytes disposition)],
       Throw (undefined_has_no "indexOf")).
Proof. cbv zeta. repeat split; vm_compute; reflexivity. Qed.

(** The step of C7 in the specification's words: the body is the tail
    up to index [i - 2], and what is written again starts at the
    marker, index [i]. *)
Definition claimed_boundary_step (fuel : nat) (last : Buffer.t) (i : Z)
  : M unit :=
  fun r =>
    write fuel (Buffer.subarray_from last i)
      (Run (after_body (self r))
           (emitted r ++ [Emit "body" (Buffer.subarray last 0 (i - 2))])).

(** C7, as stated, fails: the chunk written again is not cut at the
    marker.  With the tail "hello\r\n--X--" the marker is at index 7;
    the code hands "\r\n--X--" (from index 5) to the state Boundary,
    where it is queued; a remainder starting at the marker would queue
    "--X--". *)
Lemma C7_remainder_does_not_start_at_marker :
  let r := Run in_body [] in
  let last := bytes tail in
  rolling_tail in_body last = Some last /\
  Buffer.indexOf last (boundary in_body) 0 = 7 /\
  write 100 last r
    = (Run (with_currentChunk [bytes (crlf ++ "--X--")] (after_body in_body))
           [Emit "body" (bytes "hello")],
       Ret tt) /\
  ~ (exists fuel, write 100 last r = claimed_boundary_step fuel last 7 r).
Proof.
  cbv zeta.
  split; [vm_compute; reflexivity|].
  split; [vm_compute; reflexivity|].
  split; [vm_compute; reflexivity|].
  intros [fuel H]. destruct fuel as [|fuel]; vm_compute in H; discriminate H.
Qed.

(** C7 (amended).  In the state Body, let the rolling tail, with the
    chunk taken in, have the marker first at index [i], where [2 <= i],
    and let the two bytes before the marker be CRLF.  Then [write] cuts
    the tail at [i - 2], before that CRLF; it emits one body event,
    carrying the chunks queued in [#currentChunk] followed by the bytes
    before the cut; it empties the tail and both queues and moves to the
    state Boundary; and it writes again whatever was queued in
    [#nextChunk] and then the remainder, which is the CRLF followed by
    the bytes from the marker on.  With both queues empty the event
    carries the bytes before the cut and the call goes on as the [write]
    of the remainder. *)
Theorem C7_body_is_cut_two_bytes_before_marker
        (fuel : nat) (chunk : Buffer.t) (r : run) (last : Buffer.t) (i : Z) :
  state (self r) = ParserState.Body ->
  rolling_tail (self r) chunk = Some last ->
  Buffer.indexOf last (boundary (self r)) 0 = i ->
  2 <= i ->
  firstn 2 (skipn (Z.to_nat (i - 2)) last) = CRLF ->
  let body := firstn (Z.to_nat (i - 2)) last in
  let remainder := skipn (Z.to_nat (i - 2)) last in
  let from_marker := skipn (Z.to_nat i) last in
  last = body ++ remainder /\
  remainder = CRLF ++ from_marker /\
  Buffer.starts_with (boundary (self r)) from_marker = true /\
  write (S fuel) chunk r
    = for_each (write fuel) (nextChunk (self r) ++ [remainder])
        (Run (after_body (self r))
             (emitted r ++
              [Emit "body" (combineChunks (currentChunk (self r) ++ [body]))])) /\
  (currentChunk (self r) = [] -> nextChunk (self r) = [] ->
   write (S fuel) chunk r
     = write fuel remainder
         (Run (after_body (self r)) (emitted r ++ [Emit "body" body]))).
Proof.
  intros Hs Ht Hi Hge Hcrlf body remainder from_marker. subst i.
  assert (Hstep := @write_Body_at_boundary fuel chunk r last Hs Ht Hge).
  cbv zeta in Hstep. fold body remainder in Hstep.
  assert (Hfrom : skipn 2 remainder = from_marker).
  { unfold remainder, from_marker. rewrite skipn_skipn. f_equal. lia. }
  split; [symmetry; apply firstn_skipn|].
  split.
  { rewrite <- (firstn_skipn 2 remainder) at 1.
    unfold remainder at 1. now rewrite Hcrlf, Hfrom. }
  split.
  { rewrite <- Hfrom. now apply marker_two_bytes_into_remainder. }
  split; [exact Hstep|].
  intros Hc Hn. rewrite Hstep, Hc, Hn. cbn [app combineChunks].
  apply for_each_one.
Qed.

Lemma C7_body_is_cut_two_bytes_before_marker_witness :
  write 100 (bytes tail) (Run in_body [])
    = write 99 (bytes (crlf ++ "--X--"))
        (Run (after_body in_body) [Emit "body" (bytes "hello")]).
Proof.
  exact (proj2 (proj2 (proj2 (proj2
           (@C7_body_is_cut_two_bytes_before_marker
              99 (bytes tail) (Run in_body []) (bytes tail) 7
              eq_refl eq_refl eq_refl ltac:(lia) eq_refl))))
           eq_refl eq_refl).
Defined.

(** *** Construction *)

(** A stand-in for [parseMIMEType], to run the constructor on examples:
    it cuts the header at the first "/" and at every ";", strips the
    white space around the essence and before a parameter, lower-cases
    type, subtype and parameter names, and fails when type or subtype
    is missing. *)
Fixpoint split_at (sep : ascii) (s : string) : string * option string :=
  match s with
  | EmptyString => (EmptyString, None)
  | String c r =>
      if Ascii.eqb c sep then (EmptyString, Some r)
      else let (before, after) := split_at sep r in (String c before, after)
  end.

Fixpoint sample_parameters (fuel : nat) (s : string)
  : list (string * string) :=
  match fuel with
  | O => []
  | S fuel' =>
      let (parameter, rest) := split_at ";" s in
      let (key, value) := split_at "=" (Headers.strip_leading parameter) in
      let here :=
        match value with
        | Some v =>
            if String.eqb key "" || String.eqb v "" then []
            else [(toLowerCase key, v)]
        | None => []
        end in
      here ++ match rest with
              | Some r => sample_parameters fuel' r
              | None => []
              end
  end.

Definition sample_parseMIMEType (header : string) : option MIMEType :=
  let (ty, rest) := split_at "/" (Headers.headerValueNormalize header) in
  match rest with
  | None => None
  | Some rest =>
      let (sub, params) := split_at ";" rest in
      let sub := Headers.strip_trailing sub in
      if String.eqb ty "" || String.eqb sub "" then None
      else Some (mkMIME (toLowerCase ty) (toLowerCase sub)
                   match params with
                   | Some ps => sample_parameters (S (String.length ps)) ps
                   | None => []
                   end)
  end.

(** C8, as stated, fails in one direction: the constructor also throws
    on a header whose essence is multipart/form-data and which has a
    boundary, when the header does not begin with the very text
    "multipart/form-data".  The first test of the constructor is
    [header.startsWith('multipart/form-data')], on the string as given,
    so capitals are enough, whatever the parser would say. *)
Lemma C8_essence_in_capitals_is_rejected :
  let header := "Multipart/Form-Data; boundary=X"%string in
  sample_parseMIMEType header = Some multipart_X /\
  constructor sample_parseMIMEType header
    = Throw (TypeError "Expected multipart/form-data header").
Proof. split; reflexivity. Qed.

Section Construction.

Variable parseMIMEType : string -> option MIMEType.

Let construct := constructor parseMIMEType.

(** C8 (amended).  The constructor throws exactly when the header does
    not begin with the text "multipart/form-data", or fails to parse,
    or parses to another type or subtype than multipart/form-data, or
    has no boundary parameter; when it throws, no object comes back.
    Otherwise it returns a parser in the state Beginning with empty
    queues, no tail, and the marker "--" followed by the boundary.  So
    "text/plain" throws, "multipart/form-data" throws when the parser
    finds no boundary parameter in it, and
    "multipart/form-data; boundary=X" gives a parser with the marker
    "--X" when the parser reads it as multipart/form-data with the
    boundary X. *)
Theorem C8_constructor_throws_exactly_when (header : string) :
  (is_throw (construct header) = true <->
     String.prefix "multipart/form-data" header = false \/
     parseMIMEType header = None \/
     exists m, parseMIMEType header = Some m /\
               (type m <> "multipart"%string \/
                subtype m <> "form-data"%string \/
                parameters_has (parameters m) "boundary" = false))
  /\
  (is_throw (construct header) = false ->
     exists m b,
       parseMIMEType header = Some m /\
       parameters_get (parameters m) "boundary" = Some b /\
       construct header
         = Ret (mk m ParserState.Beginning [] [] (Buffer.from ("--" ++ b)) None))
  /\
  is_throw (construct "text/plain") = true
  /\
  ((forall m, parseMIMEType "multipart/form-data" = Some m ->
              parameters_has (parameters m) "boundary" = false) ->
   is_throw (construct "multipart/form-data") = true)
  /\
  (parseMIMEType "multipart/form-data; boundary=X" = Some multipart_X ->
   construct "multipart/form-data; boundary=X" = Ret fresh).
Proof.
  unfold construct, constructor, parameters_has.
  repeat split.
  - destruct (String.prefix "multipart/form-data" header); [|now left].
    cbn [negb]. destruct (parseMIMEType header) as [m|]; [|now right; left].
    intros H. right; right. exists m. split; [reflexivity|].
    destruct (String.eqb_spec (type m) "multipart"); [|now left].
    destruct (String.eqb_spec (subtype m) "form-data"); [|now right; left].
    right; right.
    cbn [negb orb] in H.
    destruct (parameters_get (parameters m) "boundary");
      [discriminate | reflexivity].
  - intros [H | [H | [m [Hm H]]]].
    + rewrite H. reflexivity.
    + rewrite H. destruct (String.prefix _ _); reflexivity.
    + rewrite Hm. destruct (String.prefix _ _); [|reflexivity].
      cbn [negb].
      destruct (String.eqb_spec (type m) "multipart") as [Et|Et];
        [|reflexivity].
      destruct (String.eqb_spec (subtype m) "form-data") as [Es|Es];
        [|reflexivity].
      cbn [negb orb].
      destruct H as [H | [H | H]]; try contradiction.
      destruct (parameters_get (parameters m) "boundary");
        [discriminate | reflexivity].
  - destruct (String.prefix "multipart/form-data" header); [|discriminate].
    cbn [negb]. destruct (parseMIMEType header) as [m|]; [|discriminate].
    destruct (String.eqb (type m) "multipart"); [|discriminate].
    destruct (String.eqb (subtype m) "form-data"); [|discriminate].
    cbn [negb orb].
    destruct (parameters_get (parameters m) "boundary") as [b|] eqn:Eb;
      [|discriminate].
    intros _. exists m, b. repeat split. exact Eb.
  - intros H. cbn [String.prefix negb].
    replace (String.prefix "multipart/form-data" "multipart/form-data")
      with true by reflexivity.
    cbn [negb].
    destruct (parseMIMEType "multipart/form-data") as [m|] eqn:Em;
      [|reflexivity].
    specialize (H m eq_refl).
    destruct (negb (String.eqb (type m) "multipart") ||
              negb (String.eqb (subtype m) "form-data")); [reflexivity|].
    destruct (parameters_get (parameters m) "boundary");
      [discriminate | reflexivity].
  - intros H. rewrite H. reflexivity.
Qed.

End Construction.

Lemma C8_constructor_throws_exactly_when_witness :
  is_throw (constructor sample_parseMIMEType "multipart/form-data") = true /\
  constructor sample_parseMIMEType "multipart/form-data; boundary=X" = Ret fresh.
Proof.
  pose proof (C8_constructor_throws_exactly_when sample_parseMIMEType "")
    as [_ [_ [_ [Hnone HX]]]].
  split.
  - apply Hnone. intros m Hm. inversion Hm. reflexivity.
  - apply HX. reflexivity.
Defined.

(** *** Further properties of the parser *)

Lemma combineChunks_concat (chunks : list Buffer.t) :
  combineChunks chunks = Buffer.concat chunks.
Proof.
  destruct chunks as [|c [|d chunks]]; try reflexivity.
  unfold combineChunks, Buffer.concat. cbn [List.concat].
  now rewrite app_nil_r.
Qed.

(** [combineChunks] gives the bytes of the chunks in their order,
    whether it returns the one chunk itself or a new buffer. *)
Theorem combineChunks_is_concat (chunks : list Buffer.t) :
  combineChunks chunks = Buffer.concat chunks.
Proof. intros. apply combineChunks_concat; assumption. Qed.

(** The parser with both queues emptied, in state [s]. *)
Definition cleared (s : ParserState.t) (p : t) : t :=
  mk (mimeType p) s [] [] (boundary p) (lastBytes p).

(** What [write] puts on [#nextChunk]: the rest of the chunk, unless
    it is empty. *)
Definition reinjected (rest : Buffer.t) : list Buffer.t :=
  match rest with
  | [] => []
  | _ => [rest]
  end.

Lemma byteLength_zero (b : Buffer.t) :
  (Buffer.byteLength b =? 0) = match b with [] => true | _ => false end.
Proof. destruct b; reflexivity. Qed.

(** In a line-oriented state, a chunk without CRLF (from the offset the
    state searches from) is queued: no event, no change of state. *)
Lemma write_without_CRLF_is_queued fuel chunk r :
  is_Body (state (self r)) = false ->
  Buffer.indexOf chunk CRLF
    (if ParserState.is_Boundary (state (self r)) then 2 else 0) = -1 ->
  write (S fuel) chunk r
    = (Run (push_currentChunk chunk (self r)) (emitted r), Ret tt).
Proof.
  intros Hs Hc. rewrite write_line_unfold by exact Hs. cbv zeta.
  now rewrite Hc.
Qed.

(** In a line-oriented state, a chunk made of a line without CRLF, a
    CRLF and a rest (after the bytes [lead] that the state skips) hands
    the line, joined to what was queued, to [parse], and puts the rest
    on [#nextChunk]. *)
Lemma write_line_step fuel lead line rest r :
  is_Body (state (self r)) = false ->
  Buffer.byteLength lead
    = (if ParserState.is_Boundary (state (self r)) then 2 else 0) ->
  Buffer.includes line CRLF = false ->
  write (S fuel) (lead ++ line ++ CRLF ++ rest) r
    = parse_with (write fuel) (currentChunk (self r) ++ [lead ++ line])
        (Run (with_nextChunk (nextChunk (self r) ++ reinjected rest)
                (with_currentChunk
                   (currentChunk (self r) ++ [lead ++ line]) (self r)))
             (emitted r)).
Proof.
  intros Hs Hlead Hline. rewrite write_line_unfold by exact Hs. cbv zeta.
  rewrite <- Hlead.
  destruct (@BufferSpec.first_CRLF_after_line lead line rest Hline)
    as [Hcrlf [Hhead Hrest]].
  cbv zeta in Hcrlf, Hhead, Hrest. rewrite Hhead, Hrest, Hcrlf.
  assert (Hnn : 0 <= Buffer.byteLength lead + Buffer.byteLength line)
    by (unfold Buffer.byteLength; lia).
  destruct (Z.eqb_spec (Buffer.byteLength lead + Buffer.byteLength line) (-1));
    [lia|].
  rewrite byteLength_zero.
  destruct r as [[m st cur nxt bd lb] log].
  destruct rest as [|x rest]; cbn [negb reinjected]; [|reflexivity].
  cbn [self currentChunk nextChunk push_currentChunk with_currentChunk
       with_nextChunk mimeType state boundary lastBytes].
  now rewrite app_nil_r.
Qed.

Lemma write_header_line fuel line rest r :
  state (self r) = ParserState.Headers ->
  nextChunk (self r) = [] ->
  Buffer.includes line CRLF = false ->
  let whole := Buffer.concat (currentChunk (self r) ++ [line]) in
  write (S fuel) (line ++ CRLF ++ rest) r
    = for_each (write fuel) (reinjected rest)
        (if Buffer.byteLength whole =? 0
         then Run (cleared ParserState.Body (self r)) (emitted r)
         else Run (cleared ParserState.Headers (self r))
                  (emitted r ++ [Emit "header" whole])).
Proof.
  intros Hs Hn Hline whole.
  pose proof (@write_line_step fuel [] line rest r) as Hstep.
  cbn [app] in Hstep. rewrite Hstep; clear Hstep;
    [| now rewrite Hs | now rewrite Hs | exact Hline].
  unfold parse_with. rewrite combineChunks_concat. subst whole.
  destruct r as [[m st cur nxt bd lb] log].
  cbn [self state nextChunk currentChunk emitted] in *. subst st nxt.
  cbn [self state with_nextChunk with_currentChunk mimeType currentChunk
       nextChunk boundary lastBytes app].
  match goal with
  | |- (if negb ?c then _ else _) = for_each _ _ (if ?c' then _ else _) =>
      change c' with c; destruct c
  end; reflexivity.
Qed.

(** A header line.  In the state Headers, a chunk that brings the end of
    a line (and has no CRLF before it) completes the line begun by the
    queued chunks.  If the whole line is empty the parser moves to the
    state Body and emits nothing; otherwise it emits one header event
    that carries the whole line, without the CRLF, and stays in Headers.
    Both queues are emptied and the rest of the chunk, if any, is written
    again. *)
Theorem header_line_is_emitted_whole fuel line rest r :
  state (self r) = ParserState.Headers ->
  nextChunk (self r) = [] ->
  Buffer.includes line CRLF = false ->
  let whole := Buffer.concat (currentChunk (self r) ++ [line]) in
  write (S fuel) (line ++ CRLF ++ rest) r
    = for_each (write fuel) (reinjected rest)
        (if Buffer.byteLength whole =? 0
         then Run (cleared ParserState.Body (self r)) (emitted r)
         else Run (cleared ParserState.Headers (self r))
                  (emitted r ++ [Emit "header" whole])).
Proof. intros. apply write_header_line; assumption. Qed.

Definition in_headers (queued : list Buffer.t) : t :=
  mk multipart_X ParserState.Headers queued [] (bytes "--X") None.

Lemma header_line_is_emitted_whole_witness :
  write 3 (bytes ("Type: text" ++ crlf ++ crlf))
    (Run (in_headers [bytes "Content-"]) [])
  = write 2 (bytes crlf)
      (Run (in_headers []) [Emit "header" (bytes "Content-Type: text")]).
Proof.
  exact (@header_line_is_emitted_whole 2 (bytes "Type: text") (bytes crlf)
           (Run (in_headers [bytes "Content-"]) [])
           eq_refl eq_refl eq_refl).
Defined.

Definition is_boundary_state (s : ParserState.t) : bool :=
  match s with
  | ParserState.Beginning | ParserState.Boundary => true
  | _ => false
  end.

Lemma write_boundary_line fuel lead line rest r :
  is_boundary_state (state (self r)) = true ->
  Buffer.byteLength lead
    = (if ParserState.is_Boundary (state (self r)) then 2 else 0) ->
  nextChunk (self r) = [] ->
  Buffer.includes line CRLF = false ->
  let whole := Buffer.concat (currentChunk (self r) ++ [lead ++ line]) in
  write (S fuel) (lead ++ line ++ CRLF ++ rest) r
    = if Buffer.indexOf whole (boundary (self r)) 0 =? -1
      then (Run (with_nextChunk (reinjected rest)
                   (with_currentChunk
                      (currentChunk (self r) ++ [lead ++ line]) (self r)))
                (emitted r),
            Throw AssertionError)
      else for_each (write fuel) (reinjected rest)
             (Run (cleared ParserState.Headers (self r))
                  (emitted r ++
                   [Emit "boundary" (skipn (2 + List.length lead) whole)])).
Proof.
  intros Hs Hlead Hn Hline whole.
  rewrite write_line_step;
    [| destruct (state (self r)); (discriminate || reflexivity)
     | exact Hlead | exact Hline].
  unfold parse_with. rewrite combineChunks_concat. subst whole.
  destruct r as [[m st cur nxt bd lb] log].
  cbn [self state nextChunk currentChunk emitted boundary] in *. subst nxt.
  cbn [self state with_nextChunk with_currentChunk mimeType currentChunk
       nextChunk boundary lastBytes app].
  unfold Buffer.slice_from.
  rewrite !BufferSpec.subarray_from_skipn by lia.
  destruct st; try discriminate; cbn [ParserState.is_Boundary] in Hlead;
    match goal with
    | |- (if ?c then _ else _) = (if ?c' then _ else _) =>
        change c' with c; destruct c
    end;
    try reflexivity.
  - replace (2 + List.length lead)%nat with (Z.to_nat 2)
      by (unfold Buffer.byteLength in Hlead; lia).
    reflexivity.
  - replace (2 + List.length lead)%nat with (Z.to_nat 4)
      by (unfold Buffer.byteLength in Hlead; lia).
    reflexivity.
Qed.

(** A boundary line.  In the states Beginning and Boundary (where the
    first two bytes, [lead], are skipped by the search), a chunk that
    brings the end of a line completes the line begun by the queued
    chunks.  If the marker occurs nowhere in the whole line the
    assertion of [parse] fails: nothing is emitted and line and rest stay
    queued.  Otherwise one boundary event is emitted, carrying the whole
    line without its first two bytes (four in the state Boundary); the
    parser moves to Headers, empties both queues and writes the rest
    again. *)
Theorem boundary_line_is_checked_and_emitted fuel lead line rest r :
  is_boundary_state (state (self r)) = true ->
  Buffer.byteLength lead
    = (if ParserState.is_Boundary (state (self r)) then 2 else 0) ->
  nextChunk (self r) = [] ->
  Buffer.includes line CRLF = false ->
  let whole := Buffer.concat (currentChunk (self r) ++ [lead ++ line]) in
  write (S fuel) (lead ++ line ++ CRLF ++ rest) r
    = if Buffer.indexOf whole (boundary (self r)) 0 =? -1
      then (Run (with_nextChunk (reinjected rest)
                   (with_currentChunk
                      (currentChunk (self r) ++ [lead ++ line]) (self r)))
                (emitted r),
            Throw AssertionError)
      else for_each (write fuel) (reinjected rest)
             (Run (cleared ParserState.Headers (self r))
                  (emitted r ++
                   [Emit "boundary" (skipn (2 + List.length lead) whole)])).
Proof. intros. apply write_boundary_line; assumption. Qed.

Lemma boundary_line_is_checked_and_emitted_witness :
  write 2 (bytes (crlf ++ "--X" ++ crlf))
    (Run (after_body in_body) [Emit "body" (bytes "hello")])
  = (Run (in_headers []) [Emit "body" (bytes "hello"); Emit "boundary" (bytes "X")],
     Ret tt).
Proof.
  exact (@boundary_line_is_checked_and_emitted 1 (bytes crlf) (bytes "--X") []
           (Run (after_body in_body) [Emit "body" (bytes "hello")])
           eq_refl eq_refl eq_refl eq_refl).
Defined.

(** Chunks without CRLF, written in the state Beginning or Headers, are
    queued one after the other. *)
Lemma pieces_are_queued fuel pieces :
  forall later r,
    is_Body (state (self r)) = false ->
    ParserState.is_Boundary (state (self r)) = false ->
    Forall (fun c => Buffer.includes c CRLF = false) pieces ->
    for_each (write (S fuel)) (pieces ++ later) r
      = for_each (write (S fuel)) later
          (Run (with_currentChunk (currentChunk (self r) ++ pieces) (self r))
               (emitted r)).
Proof.
  induction pieces as [|c pieces IH]; intros later r Hb Hs Hp.
  - cbn [app]. rewrite app_nil_r. now destruct r as [[m st cur nxt bd lb] log].
  - inversion Hp as [|? ? Hc Hp']; subst.
    cbn [app for_each].
    rewrite write_without_CRLF_is_queued; [| exact Hb |].
    + rewrite IH; [| | | exact Hp'];
        destruct r as [[m st cur nxt bd lb] log]; cbn in *; try assumption.
      unfold push_currentChunk, with_currentChunk. cbn.
      now rewrite <- app_assoc.
    + rewrite Hs. unfold Buffer.includes in Hc.
      now apply negb_false_iff, Z.eqb_eq in Hc.
Qed.

Lemma includes_concat_false pieces last :
  Buffer.includes (Buffer.concat pieces ++ last) CRLF = false ->
  Forall (fun c => Buffer.includes c CRLF = false) pieces /\
  Buffer.includes last CRLF = false.
Proof.
  induction pieces as [|c pieces IH]; cbn [Buffer.concat List.concat app].
  - intros H. split; [constructor | exact H].
  - rewrite <- app_assoc. intros H.
    apply BufferSpec.includes_app_false in H. destruct H as [Hc H].
    destruct (IH H) as [Hp Hl]. split; [now constructor | exact Hl].
Qed.

(** A header line may come in any number of chunks: as long as no CRLF
    lies in the line, whole or cut, the chunks give what the line written
    in one chunk gives. *)
Theorem header_line_in_pieces fuel pieces last rest r :
  state (self r) = ParserState.Headers ->
  currentChunk (self r) = [] ->
  nextChunk (self r) = [] ->
  Buffer.includes (Buffer.concat pieces ++ last) CRLF = false ->
  feed (S fuel) (pieces ++ [last ++ CRLF ++ rest]) r
    = write (S fuel) ((Buffer.concat pieces ++ last) ++ CRLF ++ rest) r.
Proof.
  intros Hs Hc Hn Hline.
  destruct (includes_concat_false _ _ Hline) as [Hp Hl].
  unfold feed. rewrite pieces_are_queued by (rewrite ?Hs; auto).
  rewrite for_each_one.
  rewrite !write_header_line; try assumption.
  destruct r as [[m st cur nxt bd lb] log].
  cbn [self currentChunk emitted with_currentChunk mimeType state nextChunk
       boundary lastBytes cleared] in *. subst cur.
  cbn [app]. unfold Buffer.concat.
  rewrite concat_app. cbn [List.concat]. rewrite !app_nil_r.
  reflexivity.
Qed.

Lemma header_line_in_pieces_witness :
  feed 3 [bytes "Con"; bytes "tent-"; bytes ("Type: text" ++ crlf)]
    (Run (in_headers []) [])
  = write 3 (bytes ("Content-Type: text" ++ crlf)) (Run (in_headers []) []).
Proof.
  exact (@header_line_in_pieces 2 [bytes "Con"; bytes "tent-"]
           (bytes "Type: text") [] (Run (in_headers []) [])
           eq_refl eq_refl eq_refl eq_refl).
Defined.

(** *** What no [write] changes *)

(** [r'] has the marker and the MIME type of [r], and the events of [r]
    followed by more. *)
Definition extends (r r' : run) : Prop :=
  boundary (self r') = boundary (self r) /\
  mimeType (self r') = mimeType (self r) /\
  exists more, emitted r' = emitted r ++ more.

Lemma extends_refl r : extends r r.
Proof. repeat split. exists []. now rewrite app_nil_r. Qed.

Lemma extends_trans r1 r2 r3 : extends r1 r2 -> extends r2 r3 -> extends r1 r3.
Proof.
  intros [Hb [Hm [m1 H1]]] [Hb' [Hm' [m2 H2]]].
  repeat split; try congruence.
  exists (m1 ++ m2). now rewrite H2, H1, app_assoc.
Qed.

Lemma extends_same_events r p' :
  boundary p' = boundary (self r) ->
  mimeType p' = mimeType (self r) ->
  extends r (Run p' (emitted r)).
Proof.
  intros Hb Hm. repeat split; try assumption.
  exists []. cbn [emitted]. now rewrite app_nil_r.
Qed.

Ltac same_marker_and_type :=
  apply extends_same_events;
  match goal with
  | r : run |- _ => destruct r as [[? ? ? ? ? ?] ?]; reflexivity
  end.

Lemma for_each_extends (w : Buffer.t -> M unit) :
  (forall c r, extends r (fst (w c r))) ->
  forall l r, extends r (fst (for_each w l r)).
Proof.
  intros Hw l. induction l as [|c l IH]; intros r; [apply extends_refl|].
  cbn [for_each]. pose proof (Hw c r) as Hc.
  destruct (w c r) as [r' [u| |]]; cbn [fst] in *; try exact Hc.
  exact (extends_trans Hc (IH r')).
Qed.

Lemma reset_and_reinject_extends (w : Buffer.t -> M unit) s r0 r :
  (forall c r, extends r (fst (w c r))) ->
  extends r0 r ->
  extends r0 (fst (reset_and_reinject w s r)).
Proof.
  intros Hw H0. unfold reset_and_reinject.
  eapply extends_trans; [|apply for_each_extends; exact Hw].
  eapply extends_trans; [exact H0|].
  apply extends_same_events; destruct r as [[m st cur nxt bd lb] log];
    reflexivity.
Qed.

Lemma emit_extends r0 r name payload :
  extends r0 r -> extends r0 (emit name payload r).
Proof.
  intros H. eapply extends_trans; [exact H|].
  repeat split. now exists [Emit name payload].
Qed.

Lemma parse_with_extends (w : Buffer.t -> M unit) chunks r0 r :
  (forall c r, extends r (fst (w c r))) ->
  extends r0 r ->
  extends r0 (fst (parse_with w chunks r)).
Proof.
  intros Hw H0. unfold parse_with.
  destruct (state (self r)) eqn:Es.
  - destruct (Buffer.indexOf _ _ 0 =? -1); [exact H0|].
    now apply reset_and_reinject_extends, emit_extends.
  - destruct (negb _).
    + now apply reset_and_reinject_extends, emit_extends.
    + now apply reset_and_reinject_extends.
  - now apply reset_and_reinject_extends, emit_extends.
  - destruct (Buffer.indexOf _ _ 0 =? -1); [exact H0|].
    now apply reset_and_reinject_extends, emit_extends.
Qed.

Lemma write_extends fuel : forall chunk r, extends r (fst (write fuel chunk r)).
Proof.
  induction fuel as [|fuel IH]; intros chunk r; [apply extends_refl|].
  destruct (is_Body (state (self r))) eqn:Est.
  - assert (Hs : state (self r) = ParserState.Body)
      by (destruct (state (self r)); try discriminate; reflexivity).
    rewrite write_Body_unfold by exact Hs.
    destruct (rolling_tail (self r) chunk) as [last|];
      [|cbn [fst]; same_marker_and_type].
    cbv zeta.
    destruct (_ && _); [cbn [fst]; same_marker_and_type|].
    destruct (negb _); [|cbn [fst]; same_marker_and_type].
    apply parse_with_extends; [exact IH|]. same_marker_and_type.
  - rewrite write_line_unfold by exact Est. cbv zeta.
    destruct (_ =? -1); [cbn [fst]; same_marker_and_type|].
    apply parse_with_extends; [exact IH|].
    destruct (negb _); same_marker_and_type.
Qed.

(** The marker and the MIME type are fixed at construction: no sequence
    of [write] calls changes them, whatever the chunks and however the
    calls end. *)
Theorem write_keeps_marker_and_type fuel chunks r :
  boundary (self (fst (feed fuel chunks r))) = boundary (self r) /\
  mimeType (self (fst (feed fuel chunks r))) = mimeType (self r).
Proof.
  destruct (@for_each_extends (write fuel) (write_extends fuel) chunks r)
    as [Hb [Hm _]].
  now split.
Qed.

(** *** The body before its marker *)

(** In the state Body, as long as the rolling tail (with the chunk taken
    in) does not hold the marker, [write] keeps the whole tail, emits
    nothing and stays in Body, whether the tail is shorter than 1024
    bytes or not. *)
Theorem body_without_marker_is_kept fuel chunk r last :
  state (self r) = ParserState.Body ->
  rolling_tail (self r) chunk = Some last ->
  Buffer.includes last (boundary (self r)) = false ->
  write (S fuel) chunk r
    = (Run (with_lastBytes (Some last) (self r)) (emitted r), Ret tt).
Proof.
  intros Hs Ht Hm. rewrite write_Body_unfold by exact Hs. rewrite Ht.
  cbv zeta. unfold Buffer.includes in Hm.
  apply negb_false_iff in Hm.
  destruct r as [[m st cur nxt bd lb] log].
  cbn [self boundary with_lastBytes] in *. rewrite Hm.
  cbn [negb]. now destruct (Buffer.byteLength last <? 1024).
Qed.

Lemma body_without_marker_is_kept_witness :
  write 1 (bytes ("lo" ++ crlf ++ "--"))
    (Run (with_lastBytes (Some (bytes ("hel" ++ crlf))) in_body) [])
  = (Run (with_lastBytes (Some (bytes ("hel" ++ crlf ++ "lo" ++ crlf ++ "--")))
            in_body) [],
     Ret tt).
Proof.
  exact (@body_without_marker_is_kept 0 (bytes ("lo" ++ crlf ++ "--"))
           (Run (with_lastBytes (Some (bytes ("hel" ++ crlf))) in_body) [])
           (bytes ("hel" ++ crlf ++ "lo" ++ crlf ++ "--"))
           eq_refl eq_refl eq_refl).
Defined.

Lemma write_total_witness :
  snd (write (enough_fuel (bytes single_field) (Run fresh []))
         (bytes single_field) (Run fresh [])) <> OutOfFuel.
Proof.
  exact (@write_total (bytes single_field) (Run fresh []) eq_refl).
Defined.

(** *** A whole part in one chunk *)

Lemma starts_with_self (v rest : Buffer.t) :
  Buffer.starts_with v (v ++ rest) = true.
Proof.
  induction v as [|x v IH]; [reflexivity|].
  cbn [app Buffer.starts_with]. rewrite IH.
  destruct x; reflexivity.
Qed.

(** A buffer in which the needle stands includes it. *)
Lemma includes_needle (a v b : Buffer.t) :
  Buffer.includes (a ++ v ++ b) v = true.
Proof.
  unfold Buffer.includes. rewrite BufferSpec.indexOf_from_start.
  apply negb_true_iff, Z.eqb_neq.
  assert (H : forall i, 0 <= i -> 0 <= Buffer.indexOf_scan v (a ++ v ++ b) i).
  { induction a as [|x a IH]; intros i Hi.
    - cbn [app]. destruct (v ++ b) as [|y l] eqn:E.
      + destruct v; [cbn; lia | discriminate].
      + cbn [Buffer.indexOf_scan]. rewrite <- E, starts_with_self. lia.
    - cbn [app Buffer.indexOf_scan].
      destruct (Buffer.starts_with v (x :: a ++ v ++ b)); [lia|].
      specialize (IH (i + 1)). lia. }
  specialize (H 0). lia.
Qed.

(** Behind the two bytes that the state Boundary skips, a chunk without
    CRLF has none to find. *)
Lemma no_CRLF_behind_lead (lead x : Buffer.t) :
  Buffer.includes x CRLF = false ->
  Buffer.indexOf (lead ++ x) CRLF (Buffer.byteLength lead) = -1.
Proof.
  intros Hx. unfold Buffer.indexOf.
  assert (Hmin : Z.min (Buffer.byteLength lead) (Buffer.byteLength (lead ++ x))
                 = Buffer.byteLength lead).
  { unfold Buffer.byteLength. rewrite length_app. lia. }
  rewrite Hmin. unfold Buffer.byteLength at 1. rewrite Nat2Z.id.
  rewrite skipn_app, skipn_all, Nat.sub_diag. cbn [skipn app].
  apply BufferSpec.includes_false_scan; [exact Hx|].
  unfold Buffer.byteLength. lia.
Qed.

(** One part, written whole.  A parser in the state Beginning with
    nothing queued is handed, in one chunk: its marker, CRLF, one header
    line, CRLF, CRLF, a body, CRLF, the marker again and a trailer.  If
    marker, header line and trailer hold no CRLF, the header line is not
    empty, and the marker does not occur in what follows the blank line
    before the place it was put, then the call returns having emitted a
    boundary event (the marker without its first two bytes), a header
    event (the header line) and a body event (the body), in this order;
    the parser is in the state Boundary and holds CRLF, marker and
    trailer in its queue. *)
Theorem one_part_in_one_chunk fuel (p : t) log (header body trailer : Buffer.t) :
  state p = ParserState.Beginning ->
  currentChunk p = [] -> nextChunk p = [] -> lastBytes p = None ->
  Buffer.includes (boundary p) CRLF = false ->
  Buffer.includes header CRLF = false ->
  header <> [] ->
  Buffer.includes (boundary p ++ trailer) CRLF = false ->
  Buffer.indexOf (body ++ CRLF ++ boundary p ++ trailer) (boundary p) 0
    = Buffer.byteLength body + 2 ->
  write (5 + fuel)
    (boundary p ++ CRLF ++ header ++ CRLF ++ CRLF
     ++ body ++ CRLF ++ boundary p ++ trailer)
    (Run p log)
  = (Run (mk (mimeType p) ParserState.Boundary
             [CRLF ++ boundary p ++ trailer] [] (boundary p) None)
         (log ++ [Emit "boundary" (skipn 2 (boundary p));
                  Emit "header" header;
                  Emit "body" body]),
     Ret tt).
Proof.
  intros Hs Hc Hn Hl Hmarker Hheader Hne Htrailer Hfirst.
  destruct p as [m st cur nxt marker lb].
  cbn [state currentChunk nextChunk lastBytes boundary mimeType] in *.
  subst st cur nxt lb.
  set (tail := body ++ CRLF ++ marker ++ trailer) in *.
  (* the boundary line *)
  change (5 + fuel)%nat with (S (S (S (S (S fuel))))).
  pose proof (@write_boundary_line (S (S (S (S fuel)))) [] marker
                (header ++ CRLF ++ CRLF ++ tail)
                (Run (mk m ParserState.Beginning [] [] marker None) log)
                eq_refl eq_refl eq_refl Hmarker) as H1.
  cbv zeta in H1.
  cbn [app self currentChunk boundary emitted Buffer.concat List.concat
       List.length plus cleared mimeType lastBytes] in H1.
  rewrite app_nil_r in H1. rewrite H1; clear H1. unfold cleared.
  cbn [self state currentChunk nextChunk boundary lastBytes mimeType emitted].
  assert (Hself : (Buffer.indexOf marker marker 0 =? -1) = false).
  { pose proof (@includes_needle [] marker []) as Hi.
    cbn [app] in Hi. rewrite app_nil_r in Hi.
    unfold Buffer.includes in Hi. now apply negb_true_iff in Hi. }
  rewrite Hself.
  destruct header as [|h0 header']; [contradiction|].
  set (header := h0 :: header') in *.
  change (reinjected (header ++ CRLF ++ CRLF ++ tail))
    with [header ++ CRLF ++ CRLF ++ tail].
  rewrite for_each_one.
  (* the header line *)
  match goal with
  | |- write _ _ ?r = _ =>
      pose proof (@write_header_line (S (S (S fuel))) header
                    (CRLF ++ tail) r eq_refl eq_refl Hheader) as H2
  end.
  cbv zeta in H2.
  cbn [app self currentChunk emitted Buffer.concat List.concat cleared
       mimeType boundary lastBytes] in H2.
  rewrite app_nil_r in H2. rewrite H2; clear H2. unfold cleared.
  cbn [self state currentChunk nextChunk boundary lastBytes mimeType emitted].
  change (Buffer.byteLength header =? 0) with false. cbv iota.
  change (reinjected (CRLF ++ tail)) with [CRLF ++ tail].
  rewrite for_each_one.
  (* the blank line *)
  match goal with
  | |- write _ _ ?r = _ =>
      pose proof (@write_header_line (S (S fuel)) [] tail r
                    eq_refl eq_refl eq_refl) as H3
  end.
  cbv zeta in H3.
  cbn [app self currentChunk emitted Buffer.concat List.concat cleared
       mimeType boundary lastBytes] in H3.
  change (Buffer.byteLength [] =? 0) with true in H3. cbv iota in H3.
  rewrite H3; clear H3. unfold cleared.
  cbn [self state currentChunk nextChunk boundary lastBytes mimeType emitted].
  assert (Htail : reinjected tail = [tail]).
  { unfold tail. destruct body; reflexivity. }
  rewrite Htail, for_each_one.
  (* the body *)
  assert (Hcut : Z.to_nat (Buffer.indexOf tail marker 0 - 2) = List.length body)
    by (rewrite Hfirst; unfold Buffer.byteLength; lia).
  match goal with
  | |- write _ _ ?r = _ =>
      pose proof (@write_Body_at_boundary (S fuel) tail r tail eq_refl) as H4
  end.
  cbv zeta in H4.
  cbn [self boundary nextChunk currentChunk emitted app] in H4.
  rewrite H4; clear H4.
  - unfold after_body.
    cbn [self state currentChunk nextChunk boundary lastBytes mimeType
         emitted app].
    rewrite Hcut. unfold tail.
    rewrite skipn_app, skipn_all, Nat.sub_diag.
    rewrite firstn_app, firstn_all, Nat.sub_diag.
    cbn [skipn firstn app combineChunks]. rewrite app_nil_r.
    rewrite for_each_one.
    (* the closing line, left in the queue *)
    rewrite write_without_CRLF_is_queued.
    + unfold after_body, push_currentChunk, with_currentChunk.
      cbn [self emitted mimeType state currentChunk nextChunk boundary
           lastBytes app].
      now rewrite <- !app_assoc.
    + reflexivity.
    + cbn [self state after_body ParserState.is_Boundary].
      change 2 with (Buffer.byteLength CRLF).
      now apply no_CRLF_behind_lead.
  - unfold rolling_tail. cbn [lastBytes].
    unfold tail. now rewrite includes_needle.
  - rewrite Hfirst. unfold Buffer.byteLength. lia.
Qed.

Lemma one_part_in_one_chunk_witness :
  write 5 (bytes (single_field)) (Run fresh [])
  = (Run (mk multipart_X ParserState.Boundary [bytes (crlf ++ "--X--")] []
             (bytes "--X") None)
         three_events,
     Ret tt).
Proof.
  exact (@one_part_in_one_chunk 0 fresh [] (bytes disposition) (bytes "hello")
           (bytes "--")
           eq_refl eq_refl eq_refl eq_refl eq_refl eq_refl
           ltac:(discriminate) eq_refl eq_refl).
Defined.

(** *** The content type of a constructed parser *)

Section Built.

Variable parseMIMEType : string -> option MIMEType.

(** Whatever header the constructor accepted, the parser it returns
    reports the content type "multipart/form-data; boundary=" followed
    by the boundary parameter, its marker is "--" followed by that
    parameter, and the reported content type begins, like the header,
    with the text the constructor asks for. *)
Theorem constructed_parser_reports_its_boundary (header : string) (p : t) :
  constructor parseMIMEType header = Ret p ->
  exists b,
    contentType p = ("multipart/form-data; boundary=" ++ b)%string /\
    boundary p = bytes "--" ++ Buffer.from b /\
    String.prefix "multipart/form-data" (contentType p) = true /\
    String.prefix "multipart/form-data" header = true.
Proof.
  unfold constructor.
  destruct (String.prefix "multipart/form-data" header) eqn:Ep;
    [|discriminate].
  cbn [negb]. destruct (parseMIMEType header) as [m|]; [|discriminate].
  destruct (String.eqb_spec (type m) "multipart") as [Et|]; [|discriminate].
  destruct (String.eqb_spec (subtype m) "form-data") as [Es|]; [|discriminate].
  cbn [negb orb].
  destruct (parameters_get (parameters m) "boundary") as [b|] eqn:Eb;
    [|discriminate].
  intros H. inversion H; subst p. exists b.
  unfold contentType. cbn [mimeType boundary]. rewrite Et, Es, Eb.
  repeat split; reflexivity.
Qed.

End Built.

Lemma constructed_parser_reports_its_boundary_witness :
  exists b,
    contentType fresh = ("multipart/form-data; boundary=" ++ b)%string /\
    boundary fresh = bytes "--" ++ Buffer.from b /\
    String.prefix "multipart/form-data" (contentType fresh) = true /\
    String.prefix "multipart/form-data" "multipart/form-data; boundary=X" = true.
Proof.
  exact (@constructed_parser_reports_its_boundary sample_parseMIMEType
           "multipart/form-data; boundary=X" fresh eq_refl).
Defined.

(** *** A marker at the very start of the tail *)



(** *** A marker that no CRLF precedes *)

(** In the state Body the two bytes before the marker are not looked at:
    wherever the marker first stands in the rolling tail, at an index
    [i] with [2 <= i], the tail is cut at [i - 2].  The body event
    carries the bytes before the cut, and the two bytes between the cut
    and the marker, whatever they are, go with the remainder that is
    written again in the state Boundary. *)
Theorem body_is_cut_whatever_precedes_marker
        (fuel : nat) (chunk : Buffer.t) (r : run) (last : Buffer.t) (i : Z) :
  state (self r) = ParserState.Body ->
  rolling_tail (self r) chunk = Some last ->
  Buffer.indexOf last (boundary (self r)) 0 = i ->
  2 <= i ->
  let body := firstn (Z.to_nat (i - 2)) last in
  let remainder := skipn (Z.to_nat (i - 2)) last in
  last = body ++ remainder /\
  Buffer.starts_with (boundary (self r)) (skipn 2 remainder) = true /\
  write (S fuel) chunk r
    = for_each (write fuel) (nextChunk (self r) ++ [remainder])
        (Run (after_body (self r))
             (emitted r ++
              [Emit "body" (combineChunks (currentChunk (self r) ++ [body]))])).
Proof.
  intros Hs Ht Hi Hge body remainder. subst i.
  split; [symmetry; apply firstn_skipn|].
  split; [now apply marker_two_bytes_into_remainder|].
  now apply write_Body_at_boundary.
Qed.

(** With the tail "hello--Xworld" CRLF "--X--" the body event carries
    "hel"; "lo" goes with the line that the state Boundary then reads,
    and is cut off with the first four bytes of that line. *)
Lemma body_is_cut_whatever_precedes_marker_witness :
  write 100 (bytes ("hello--Xworld" ++ crlf ++ "--X--")) (Run in_body [])
  = (Run (mk multipart_X ParserState.Headers [bytes "--X--"] []
             (bytes "--X") None)
         [Emit "body" (bytes "hel"); Emit "boundary" (bytes "Xworld")],
     Ret tt).
Proof.
  rewrite (proj2 (proj2
             (@body_is_cut_whatever_precedes_marker
                99 (bytes ("hello--Xworld" ++ crlf ++ "--X--"))
                (Run in_body [])
                (bytes ("hello--Xworld" ++ crlf ++ "--X--")) 5
                eq_refl eq_refl eq_refl ltac:(lia)))).
  reflexivity.
Defined.

End FormDataParserSpec.

(** ** The stash of the test server *)

Module StashSpec.
Import Stash.

Section Keys.

Variable K : Type.
Variable same : K -> K -> bool.
Variable V : Type.
Hypothesis same_spec : forall a b, reflect (a = b) (same a b).

Let stash : Type := Stash.t K V.

(** No key occurs twice. *)
Definition well_formed (m : stash) : Prop := NoDup (map fst m).

Lemma get_set_same (m : stash) key e : get same (set same m key e) key = Some e.
Proof.
  induction m as [|[k old] m IH]; cbn [set get].
  - destruct (same_spec key key); [reflexivity | contradiction].
  - destruct (same_spec k key) as [E|E]; cbn [get].
    + destruct (same_spec k key); [reflexivity | contradiction].
    + destruct (same_spec k key); [contradiction | exact IH].
Qed.

Lemma get_set_other (m : stash) key key' e :
  key <> key' -> get same (set same m key e) key' = get same m key'.
Proof.
  intros Hne. induction m as [|[k old] m IH]; cbn [set get].
  - destruct (same_spec key key'); [contradiction | reflexivity].
  - destruct (same_spec k key) as [E|E]; cbn [get].
    + subst k. destruct (same_spec key key'); [contradiction | reflexivity].
    + destruct (same_spec k key'); [reflexivity | exact IH].
Qed.

Lemma delete_set_same (m : stash) key e :
  delete same (set same m key e) key = delete same m key.
Proof.
  induction m as [|[k old] m IH]; cbn [set delete].
  - destruct (same_spec key key); [reflexivity | contradiction].
  - destruct (same_spec k key) as [E|E]; cbn [delete].
    + destruct (same_spec k key); [reflexivity | contradiction].
    + destruct (same_spec k key); [contradiction | now rewrite IH].
Qed.

Lemma get_not_in (m : stash) key :
  ~ In key (map fst m) -> get same m key = None.
Proof.
  induction m as [|[k e] m IH]; [reflexivity|]. cbn [map fst In get].
  intros H. destruct (same_spec k key); [tauto|]. apply IH. tauto.
Qed.

Lemma keys_delete (m : stash) key k :
  In k (map fst (delete same m key)) -> In k (map fst m).
Proof.
  induction m as [|[k0 e] m IH]; [tauto|]. cbn [delete map fst In].
  destruct (same_spec k0 key); cbn [map fst In]; tauto.
Qed.

Lemma well_formed_delete (m : stash) key :
  well_formed m -> well_formed (delete same m key).
Proof.
  unfold well_formed.
  induction m as [|[k e] m IH]; [trivial|]. cbn [delete map fst].
  intros H. inversion H as [|? ? Hin Hd]; subst.
  destruct (same_spec k key); [exact Hd|].
  cbn [map fst]. constructor; [|now apply IH].
  intros Hk. apply Hin. eapply keys_delete. exact Hk.
Qed.

Lemma get_delete_same (m : stash) key :
  well_formed m -> get same (delete same m key) key = None.
Proof.
  unfold well_formed.
  induction m as [|[k e] m IH]; [reflexivity|]. cbn [delete map fst].
  intros H. inversion H as [|? ? Hin Hd]; subst.
  destruct (same_spec k key) as [E|E].
  - subst k. now apply get_not_in.
  - cbn [get]. destruct (same_spec k key); [contradiction | now apply IH].
Qed.

Lemma get_delete_other (m : stash) key key' :
  key <> key' -> get same (delete same m key) key' = get same m key'.
Proof.
  intros Hne. induction m as [|[k e] m IH]; [reflexivity|]. cbn [delete get].
  destruct (same_spec k key) as [E|E].
  - subst k. destruct (same_spec key key'); [contradiction | reflexivity].
  - cbn [get]. destruct (same_spec k key'); [reflexivity | exact IH].
Qed.

(** What is put under a key is what the next [take] of the key returns,
    whatever was stored under it before; the key is then gone, and the
    stash is as if the earlier entry had been deleted. *)
Theorem take_returns_what_was_put (m : stash) key v p :
  take same key (put same key v p m) = (delete same m key, Some v).
Proof.
  unfold take, put, has. rewrite get_set_same. cbn [value].
  now rewrite delete_set_same.
Qed.

(** [take] hands a value out once: a second [take] of the key returns
    [undefined] and leaves the stash as it is; entries under other keys
    are returned as if the first [take] had not happened. *)
Theorem take_is_one_shot (m : stash) key key' :
  well_formed m ->
  take same key (fst (take same key m)) = (fst (take same key m), None) /\
  (key <> key' ->
   snd (take same key' (fst (take same key m))) = snd (take same key' m)).
Proof.
  intros Hwf. split.
  - unfold take at 2 3, has.
    destruct (get same m key) as [e|] eqn:Eg; cbn [fst].
    + unfold take, has. now rewrite get_delete_same.
    + unfold take, has. now rewrite Eg.
  - intros Hne. unfold take at 2, has.
    destruct (get same m key) as [e|] eqn:Eg; cbn [fst]; [|reflexivity].
    unfold take, has. rewrite get_delete_other by exact Hne.
    destruct (get same m key'); reflexivity.
Qed.

End Keys.

Definition sample_stash : Stash.t string Z :=
  [("state"%string, Stash.Entry 1 "/a"); ("abort"%string, Stash.Entry 2 "/b")].

Lemma take_is_one_shot_witness :
  take String.eqb "abort"%string
    (fst (take String.eqb "abort"%string sample_stash))
    = ([("state"%string, Stash.Entry 1 "/a")], None) /\
  snd (take String.eqb "state"%string
         (fst (take String.eqb "abort"%string sample_stash)))
    = Some 1.
Proof.
  destruct (@take_is_one_shot string String.eqb Z String.eqb_spec
              sample_stash "abort"%string "state"%string) as [H1 H2].
  - repeat constructor; simpl; intuition discriminate.
  - split; [exact H1 | exact (H2 ltac:(discriminate))].
Defined.

Lemma take_returns_what_was_put_witness :
  take String.eqb "abort"%string
    (put String.eqb "abort"%string 7 "/c" sample_stash)
    = ([("state"%string, Stash.Entry 1 "/a")], Some 7).
Proof.
  exact (@take_returns_what_was_put string String.eqb Z String.eqb_spec
           sample_stash "abort"%string 7 "/c"%string).
Defined.

End StashSpec.
